(** * average-rating: per-brand mean rating of product records

    A shallow embedding of [main.py]: the loader [read_csv_files], the
    aggregator [calculate_average_rating], the reporter [generate_report]
    and the entry point [main], with the properties of the specification
    proved about them.

    Python values are modelled as follows.
    - [str] is [string] (the UTF-8 bytes of the text), [int] is [Z];
    - [float] is an IEEE 754 binary64 number, [spec_float] at precision 53
      with the round-to-nearest-even operations of [SpecFloat];
    - a record ([Dict[str, str]]) is a [gmap string string];
    - the two accumulators of the aggregator are insertion-ordered
      dictionaries, kept as association lists with unique keys;
    - exceptions, the two output streams and the files opened are explicit:
      a computation takes a [world] and returns a value or an exception
      together with the new [world]. *)

From Stdlib Require Import ZArith String Ascii List Bool Lia SpecFloat.
From stdpp Require Import base option list sorting gmap strings.

#[local] Set Warnings "-clear-no-such-hyp".

Local Open Scope string_scope.
Local Open Scope list_scope.
Local Open Scope Z_scope.

(** ** Floating-point numbers (Python [float]) *)

Module Float.

Definition prec : Z := 53.
Definition emax : Z := 1024.

Abbreviation float := spec_float.

Definition zero : float := S754_zero false.
Definition nan : float := S754_nan.
Definition infinity : float := S754_infinity false.

Definition add : float -> float -> float := SFadd prec emax.
Definition div : float -> float -> float := SFdiv prec emax.

(** [x < y], [x == y] and [x <= y] as Python evaluates them: each is
    false as soon as one side is a NaN. *)
Definition ltb : float -> float -> bool := SFltb.
Definition eqb : float -> float -> bool := SFeqb.
Definition leb : float -> float -> bool := SFleb.
(** [x >= y] *)
Definition geb (x y : float) : bool := leb y x.

Definition is_nan (x : float) : bool :=
  match x with S754_nan => true | _ => false end.

(** [float(n)] for an [int]: the nearest binary64 number.  (Python raises
    OverflowError beyond the range of binary64; the only integers
    converted by this program are record counts, which are bounded by the
    length of a list.) *)
Definition of_Z (n : Z) : float := binary_normalize prec emax n 0 false.

(** The binary64 number nearest to [m * 10 ^ e10], with sign [neg]. *)
Definition of_decimal (neg : bool) (m e10 : Z) : float :=
  match m with
  | Zpos p =>
      if 0 <=? e10
      then binary_round prec emax neg (Z.to_pos (Zpos p * 10 ^ e10)) 0
      else SFdiv prec emax (S754_finite neg p 0)
             (S754_finite false (Z.to_pos (10 ^ (- e10))) 0)
  | _ => S754_zero neg
  end.

End Float.

Abbreviation float := Float.float.

(** ** Text to number (the builtin [float] applied to a [str])

    The accepted language is the one of the language reference: optional
    surrounding whitespace, an optional sign, then [inf], [infinity] or
    [nan] in any letter case, or a decimal numeral with an optional
    fraction and an optional exponent, where single underscores may
    separate digits.  The model reads ASCII text; digits and spaces outside
    ASCII, which Python also accepts, are not recognised by it. *)

Module PyFloat.

Definition is_space (c : ascii) : bool :=
  let n := nat_of_ascii c in
  (((9 <=? n) && (n <=? 13)) || (n =? 32))%nat.

Definition is_digit (c : ascii) : bool :=
  let n := nat_of_ascii c in ((48 <=? n) && (n <=? 57))%nat.

Definition digit_val (c : ascii) : Z := Z.of_nat (nat_of_ascii c) - 48.

Definition to_lower (c : ascii) : ascii :=
  let n := nat_of_ascii c in
  if ((65 <=? n) && (n <=? 90))%nat then ascii_of_nat (n + 32) else c.

Definition is_underscore (c : ascii) : bool := Ascii.eqb c "_".

(** Underscores are allowed only after a digit and before a digit; they
    are removed before the numeral is read. *)
Fixpoint remove_underscores (prev : ascii) (s : list ascii)
  : option (list ascii) :=
  match s with
  | [] => if is_underscore prev then None else Some []
  | c :: s' =>
      if is_underscore c then
        if is_digit prev then remove_underscores c s' else None
      else if is_underscore prev && negb (is_digit c) then None
      else cons c <$> remove_underscores c s'
  end.

Fixpoint lstrip (s : list ascii) : list ascii :=
  match s with
  | c :: s' => if is_space c then lstrip s' else s
  | [] => []
  end.

Definition strip (s : list ascii) : list ascii :=
  rev (lstrip (rev (lstrip s))).

Fixpoint span_digits (s : list ascii) : list ascii * list ascii :=
  match s with
  | c :: s' =>
      if is_digit c
      then let '(ds, rest) := span_digits s' in (c :: ds, rest)
      else ([], s)
  | [] => ([], [])
  end.

Definition digits_to_Z (ds : list ascii) : Z :=
  fold_left (fun acc c => 10 * acc + digit_val c) ds 0.

Definition parse_sign (s : list ascii) : bool * list ascii :=
  match s with
  | "-"%char :: s' => (true, s')
  | "+"%char :: s' => (false, s')
  | _ => (false, s)
  end.

(** What follows the mantissa: nothing, or [e] or [E], an optional sign
    and at least one digit, up to the end of the text. *)
Definition parse_exponent (s : list ascii) : option Z :=
  match s with
  | [] => Some 0
  | c :: s' =>
      if Ascii.eqb (to_lower c) "e" then
        let '(neg, s'') := parse_sign s' in
        match span_digits s'' with
        | ((_ :: _) as ds, []) =>
            Some (if neg then - digits_to_Z ds else digits_to_Z ds)
        | _ => None
        end
      else None
  end.

Definition parse_decimal (neg : bool) (s : list ascii) : option float :=
  let '(ip, r1) := span_digits s in
  let '(fp, r2) :=
    match r1 with
    | "."%char :: t => span_digits t
    | _ => ([], r1)
    end in
  match ip ++ fp with
  | [] => None
  | ds =>
      e ← parse_exponent r2;
      Some (Float.of_decimal neg (digits_to_Z ds) (e - Z.of_nat (length fp)))
  end.

Definition parse_inf_or_nan (neg : bool) (s : list ascii) : option float :=
  let w := string_of_list_ascii (map to_lower s) in
  if String.eqb w "inf" || String.eqb w "infinity"
  then Some (S754_infinity neg)
  else if String.eqb w "nan" then Some S754_nan
  else None.

(** [float(s)]: [Some x] when the conversion succeeds, [None] when it
    raises ValueError. *)
Definition float_of_str (s : string) : option float :=
  t ← remove_underscores "000"%char (list_ascii_of_string s);
  let '(neg, body) := parse_sign (strip t) in
  match parse_decimal neg body with
  | Some x => Some x
  | None => parse_inf_or_nan neg body
  end.

End PyFloat.


(** ** Exceptions, output streams and files *)

Abbreviation record := (gmap string string).

(** [OSError class_name path] stands for the subclasses of OSError other
    than FileNotFoundError that [open] raises (NotADirectoryError,
    IsADirectoryError, PermissionError); UnicodeDecodeError is a subclass
    of ValueError. *)
Inductive exn : Type :=
  | KeyError (key : string)
  | ValueError (msg : string)
  | UnicodeDecodeError (msg : string)
  | ZeroDivisionError
  | FileNotFoundError (path : string)
  | OSError (class_name path : string)
  | CsvError (msg : string)
  | SystemExit (code : Z).

(** What [open] and [csv.DictReader] make of a path for which [open] does
    not raise FileNotFoundError.
    - [Rows]: the file is read to its end, and every row has as many fields
      as the header, so that every field of a row is a string (rows that
      are shorter or longer, for which the reader puts None or a list in
      the row, are not represented);
    - [Malformed]: the reader yields [rows], then raises [csv.Error];
    - [Unopenable]: [open] raises the OSError of that class, for instance
      NotADirectoryError for a path below a regular file;
    - [Undecodable]: the reader yields [rows], then the text fails to
      decode as UTF-8. *)
Inductive csv_file : Type :=
  | Rows (rows : list record)
  | Malformed (rows : list record) (msg : string)
  | Unopenable (class_name : string)
  | Undecodable (rows : list record) (msg : string).

(** [files] is the file system ([open] raises FileNotFoundError for a path
    that is not bound), [opened] the paths given to [open] so far, in
    order, [stdout] and [stderr] the lines printed so far, in order. *)
Record world : Type := World {
  files : gmap string csv_file;
  opened : list string;
  stdout : list string;
  stderr : list string
}.

Inductive outcome (A : Type) : Type :=
  | Ok (a : A)
  | Raise (e : exn).
Arguments Ok {A} a.
Arguments Raise {A} e.

Definition M (A : Type) : Type := world -> outcome A * world.

Definition ret {A} (a : A) : M A := fun w => (Ok a, w).

Definition bind {A B} (c : M A) (k : A -> M B) : M B :=
  fun w =>
    match c w with
    | (Ok a, w') => k a w'
    | (Raise e, w') => (Raise e, w')
    end.

Definition raise {A} (e : exn) : M A := fun w => (Raise e, w).

(** [try: body  except <handled>: ...]: [handler e] is [Some h] for the
    exceptions the clause catches. *)
Definition try_except {A} (body : M A) (handler : exn -> option (M A)) : M A :=
  fun w =>
    match body w with
    | (Ok a, w') => (Ok a, w')
    | (Raise e, w') =>
        match handler e with
        | Some h => h w'
        | None => (Raise e, w')
        end
    end.

Declare Scope py_scope.
Delimit Scope py_scope with py.
Notation "x <- c ;; k" := (bind c (fun x => k))
  (at level 100, c at next level, right associativity) : py_scope.
Notation "c ;;; k" := (bind c (fun _ => k))
  (at level 100, right associativity) : py_scope.
Local Open Scope py_scope.

(** [print(line)] and [print(line, file=sys.stderr)] *)
Definition print (line : string) : M unit :=
  fun w => (Ok tt, World (files w) (opened w) (stdout w ++ [line]) (stderr w)).

Definition print_stderr (line : string) : M unit :=
  fun w => (Ok tt, World (files w) (opened w) (stdout w) (stderr w ++ [line])).

(** [sys.exit(code)] *)
Definition sys_exit {A} (code : Z) : M A := raise (SystemExit code).

(** [record[key]] *)
Definition getitem (r : record) (key : string) : M string :=
  match r !! key with
  | Some v => ret v
  | None => raise (KeyError key)
  end.

(** [float(s)]; the text of the ValueError is the part of Python's message
    that does not depend on how [s] is quoted. *)
Definition float_ (s : string) : M float :=
  match PyFloat.float_of_str s with
  | Some x => ret x
  | None => raise (ValueError "could not convert string to float")
  end.

(** [x / n] for a float [x] and an int [n] *)
Definition truediv (x : float) (n : Z) : M float :=
  if n =? 0 then raise ZeroDivisionError
  else ret (Float.div x (Float.of_Z n)).

(** [for x in xs: st = body st x], stopping at the first exception. *)
Fixpoint for_each {A S} (xs : list A) (st : S) (body : S -> A -> M S) : M S :=
  match xs with
  | [] => ret st
  | x :: xs' => st' <- body st x ;; for_each xs' st' body
  end.

(** [[f x for x in xs]] *)
Fixpoint comprehension {A B} (f : A -> M B) (xs : list A) : M (list B) :=
  match xs with
  | [] => ret []
  | x :: xs' => y <- f x ;; ys <- comprehension f xs' ;; ret (y :: ys)
  end.

(** ** Insertion-ordered dictionaries keyed by [str] *)

Module Dict.

Definition dict (V : Type) : Type := list (string * V).

Section Ops.
Context {V : Type}.

Fixpoint lookup (d : dict V) (k : string) : option V :=
  match d with
  | [] => None
  | (k', v) :: d' => if String.eqb k' k then Some v else lookup d' k
  end.

(** [k in d] *)
Definition contains (d : dict V) (k : string) : bool :=
  match lookup d k with Some _ => true | None => false end.

(** [d[k] = v]: a key that is present keeps its place, a new key goes
    last. *)
Fixpoint set (d : dict V) (k : string) (v : V) : dict V :=
  match d with
  | [] => [(k, v)]
  | (k', v') :: d' =>
      if String.eqb k' k then (k', v) :: d' else (k', v') :: set d' k v
  end.

(** [d[k]] *)
Definition get (d : dict V) (k : string) : M V :=
  match lookup d k with
  | Some v => ret v
  | None => raise (KeyError k)
  end.

(** iteration order of [for k in d] *)
Definition keys (d : dict V) : list string := map fst d.
End Ops.

End Dict.

(** ** [list.sort(key=..., reverse=...)]

    The sort is stable and compares keys with [<] only.  With
    [reverse=True] the list is reversed, sorted and reversed again, which
    keeps elements with equal keys in their original order.  When no key
    is a NaN, [<] orders the keys and the result is the one of every
    stable sort, that of Python included.  With a NaN among the keys the
    result of Python depends on the comparisons its merge strategy makes,
    and is this one only on short lists such as a pair; the properties
    below that have to do with the order of the output assume that no key
    is a NaN or concern such lists. *)

Section Sort.
Context {A : Type} (key : A -> float).

Fixpoint insort (x : A) (l : list A) : list A :=
  match l with
  | [] => [x]
  | y :: l' =>
      if Float.ltb (key y) (key x) then y :: insort x l' else x :: l
  end.

Fixpoint sort_ascending (l : list A) : list A :=
  match l with
  | [] => []
  | x :: l' => insort x (sort_ascending l')
  end.

Definition sort (reversed : bool) (l : list A) : list A :=
  if reversed then reverse (sort_ascending (reverse l)) else sort_ascending l.

(** [x] may stand before [y] in ascending, in descending order of keys. *)
Definition ascending (x y : A) : Prop := Float.leb (key x) (key y) = true.
Definition descending (x y : A) : Prop := Float.geb (key x) (key y) = true.
End Sort.

(** ** The aggregator *)

Definition warning (raw name brand : string) : string :=
  String.concat ""
    ["Предупреждение: некорректный рейтинг '"; raw; "' для товара "; name;
     ", бренд "; brand; ". Пропускаем."].

(** [except ValueError:] *)
Definition is_ValueError {A} (h : M A) (e : exn) : option (M A) :=
  match e with
  | ValueError _ | UnicodeDecodeError _ => Some h
  | _ => None
  end.

(** Lines 56-64, the [try] statement of the loop body: the rating, or
    [None] when the handler has run and the loop is to [continue]. *)
Definition parse_rating (r : record) (brand : string) : M (option float) :=
  try_except
    (raw <- getitem r "rating" ;; rating <- float_ raw ;; ret (Some rating))
    (is_ValueError
       (raw <- getitem r "rating" ;;
        name <- getitem r "name" ;;
        print_stderr (warning raw name brand) ;;;
        ret None)).

(** Lines 65-69: the rating is added to the sum and the count of the
    brand. *)
Definition add_rating (st : Dict.dict float * Dict.dict Z)
    (brand : string) (rating : float) : M (Dict.dict float * Dict.dict Z) :=
  let '(brand_ratings, brand_counts) := st in
  let '(brand_ratings, brand_counts) :=
    if negb (Dict.contains brand_ratings brand)
    then (Dict.set brand_ratings brand Float.zero,
          Dict.set brand_counts brand 0)
    else (brand_ratings, brand_counts) in
  total <- Dict.get brand_ratings brand ;;
  let brand_ratings := Dict.set brand_ratings brand (Float.add total rating) in
  count <- Dict.get brand_counts brand ;;
  let brand_counts := Dict.set brand_counts brand (count + 1) in
  ret (brand_ratings, brand_counts).

(** The body of the loop over the records. *)
Definition accumulate (st : Dict.dict float * Dict.dict Z) (r : record)
  : M (Dict.dict float * Dict.dict Z) :=
  brand <- getitem r "brand" ;;
  parsed <- parse_rating r brand ;;
  match parsed with
  | None => ret st
  | Some rating => add_rating st brand rating
  end.

Definition calculate_average_rating (records : list record)
  : M (list (string * float)) :=
  st <- for_each records ([], []) accumulate ;;
  let '(brand_ratings, brand_counts) := st in
  average_ratings <-
    comprehension
      (fun brand =>
         total <- Dict.get brand_ratings brand ;;
         count <- Dict.get brand_counts brand ;;
         average <- truediv total count ;;
         ret (brand, average))
      (Dict.keys brand_ratings) ;;
  ret (sort snd true average_ratings).

(** ** The loader *)

(** [open(file_path)] followed by the iteration over [csv.DictReader]: the
    rows of the file. *)
Definition read_rows (file_path : string) : M (list record) :=
  fun w =>
    let w' := World (files w) (opened w ++ [file_path]) (stdout w) (stderr w) in
    match files w !! file_path with
    | None => (Raise (FileNotFoundError file_path), w')
    | Some (Rows rows) => (Ok rows, w')
    | Some (Malformed _ msg) => (Raise (CsvError msg), w')
    | Some (Unopenable class_name) => (Raise (OSError class_name file_path), w')
    | Some (Undecodable _ msg) => (Raise (UnicodeDecodeError msg), w')
    end.

Definition file_not_found (file_path : string) : string :=
  String.concat "" ["Ошибка: файл не найден — "; file_path].

Definition csv_error (file_path msg : string) : string :=
  String.concat "" ["Ошибка при чтении CSV-файла "; file_path; ": "; msg].

(** The body of the loop over the paths: the [try] statement. *)
Definition read_file (all_records : list record) (file_path : string)
  : M (list record) :=
  try_except
    (rows <- read_rows file_path ;; ret (all_records ++ rows))
    (fun e =>
       match e with
       | FileNotFoundError _ =>
           Some (print_stderr (file_not_found file_path) ;;; sys_exit 1)
       | CsvError msg =>
           Some (print_stderr (csv_error file_path msg) ;;; sys_exit 1)
       | _ => None
       end).

Definition read_csv_files (file_paths : list string) : M (list record) :=
  for_each file_paths [] read_file.

(** ** The reporter *)

Module Format.

(** The digits of a natural number. *)
Fixpoint digits (fuel : nat) (n : N) (acc : string) : string :=
  let acc' := String (ascii_of_N (48 + n mod 10)) acc in
  match fuel with
  | O => acc'
  | S fuel' => if (n <? 10)%N then acc' else digits fuel' (n / 10)%N acc'
  end.

Definition decimal (n : N) : string := digits (N.to_nat (N.log2 n)) n "".

(** [m * 2 ^ e * 10] rounded to the nearest integer, ties to even. *)
Definition tenths (m : positive) (e : Z) : Z :=
  if 0 <=? e then Zpos m * 2 ^ e * 10
  else
    let den := 2 ^ (- e) in
    let q := (Zpos m * 10) / den in
    let r := (Zpos m * 10) mod den in
    match 2 * r ?= den with
    | Lt => q
    | Gt => q + 1
    | Eq => if Z.even q then q else q + 1
    end.

Definition sign (s : bool) : string := if s then "-" else "".

(** [f"{x:.1f}"] *)
Definition fixed1 (x : float) : string :=
  match x with
  | S754_nan => "nan"
  | S754_infinity s => String.append (sign s) "inf"
  | S754_zero s => String.append (sign s) "0.0"
  | S754_finite s m e =>
      let t := Z.to_N (tenths m e) in
      String.concat ""
        [sign s; decimal (t / 10)%N; "."; decimal (t mod 10)%N]
  end.

End Format.

Section Program.

(** [tabulate(table_data, headers=..., tablefmt=...)] of the tabulate
    package, which is not part of this program: any function from the
    rows, the headers and the format name to the rendered text. *)
Variable tabulate : list (list string) -> list string -> string -> string.

Definition unsupported (report_type : string) : string :=
  String.concat "" ["Неподдерживаемый тип отчёта: "; report_type].

Definition generate_report (report_type : string)
    (data : list (string * float)) : M unit :=
  if negb (String.eqb report_type "average-rating")
  then raise (ValueError (unsupported report_type))
  else
    let table_data :=
      map (fun '(brand, avg_rating) => [brand; Format.fixed1 avg_rating]) data in
    let headers := ["Brand"; "Rating"] in
    print (tabulate table_data headers "grid").

(** Lines 117-128 of [main]: what it does once [parser.parse_args()] has
    returned the files and the report type.  The exits of argparse itself
    (status 2 on a usage error, status 0 after [--help]) come before and
    are not part of this function; argparse returns at least one file,
    and what is proved below holds for any list of files. *)
Definition main (files : list string) (report : string) : M unit :=
  records <- read_csv_files files ;;
  average_ratings <- calculate_average_rating records ;;
  try_except
    (generate_report report average_ratings)
    (fun e =>
       match e with
       | ValueError msg | UnicodeDecodeError msg =>
           Some (print_stderr (String.concat "" ["Ошибка: "; msg]) ;;; sys_exit 1)
       | _ => None
       end).

End Program.

(** The exit status of the process once the arguments are parsed: 0 when
    [main] returns, the argument of [sys.exit], and 1 for an exception that
    nothing catches. *)
Definition exit_status {A} (o : outcome A) : Z :=
  match o with
  | Ok _ => 0
  | Raise (SystemExit code) => code
  | Raise _ => 1
  end.

Definition product (name brand price rating : string) : record :=
  {[ "name" := name; "brand" := brand; "price" := price; "rating" := rating ]}.

Definition world0 : world := World ∅ [] [] [].

(** Records used as examples below; several are those of the test suite. *)
Definition xiaomi_records : list record :=
  [product "p1" "xiaomi" "500" "4.2"; product "p2" "xiaomi" "600" "4.8"].

Definition sorting_records : list record :=
  [product "p1" "a" "1" "3.0"; product "p2" "b" "2" "5.0";
   product "p3" "c" "3" "4.0"; product "p4" "d" "4" "5.0"].

Definition nan_records : list record :=
  [product "p1" "a" "1" "nan"; product "p2" "b" "2" "1.0"].

Definition apple_records : list record :=
  [product "p1" "Apple" "1000" "4.5"; product "p2" "apple" "1100" "4.9"].

Definition invalid_records : list record :=
  [product "p1" "apple" "1000" "invalid"; product "p2" "apple" "1100" "4.9"].

Definition brandless_records : list record :=
  [product "p1" "apple" "1000" "4.5"; {[ "name" := "p2"; "rating" := "4.9" ]}].

(** A file system with two files that parse and one that does not. *)
Definition some_files : gmap string csv_file :=
  {[ "a.csv" := Rows xiaomi_records;
     "b.csv" := Rows apple_records;
     "bad.csv" := Malformed [] "field larger than field limit (131072)" ]}.

Definition some_world : world := World some_files [] [] [].

(** A renderer to run the reporter with: headers, then cells, separated
    by bars. *)
Definition bars (rows : list (list string)) (headers : list string)
    (tablefmt : string) : string :=
  String.concat "|" (headers ++ concat rows).

(** A record whose rating is rejected and that has no name, and a file
    system whose only file holds a record without brand. *)
Definition nameless_rejected : record :=
  {[ "brand" := "apple"; "rating" := "oops" ]}.

Definition keyless_world : world :=
  World {[ "c.csv" := Rows brandless_records ]} [] [] [].

(** 1.0 and 4.5 *)
Definition one : float := S754_finite false 4503599627370496 (-52).
Definition four_and_a_half : float := S754_finite false 5066549580791808 (-50).

(** ** What the aggregator is expected to compute *)

(** The rating of a record, when it has one that [float] accepts. *)
Definition rating_of (r : record) : option float :=
  raw ← r !! "rating"; PyFloat.float_of_str raw.

(** The ratings of the records bearing [brand], in the order of the
    records, without those that [float] rejects. *)
Definition ratings_of (brand : string) (records : list record) : list float :=
  omap rating_of (filter (fun r => r !! "brand" = Some brand) records).

(** Sum and count as the loop forms them, and their quotient. *)
Definition total (xs : list float) : float := fold_left Float.add xs Float.zero.

Definition mean (xs : list float) : float :=
  Float.div (total xs) (Float.of_Z (Z.of_nat (length xs))).

(** Each element once, at the place of its first occurrence. *)
Fixpoint first_occurrences (l : list string) : list string :=
  match l with
  | [] => []
  | x :: l' => x :: filter (fun y => y ≠ x) (first_occurrences l')
  end.

(** The brands of the records whose rating [float] accepts, in the order in
    which they are first met. *)
Definition brands_seen (records : list record) : list string :=
  first_occurrences
    (omap (fun r => _ ← rating_of r; r !! "brand") records).

(** The keys a record must have for the loop body to run: [brand] and
    [rating], and [name] when the rating is rejected. *)
Definition readable (r : record) : Prop :=
  is_Some (r !! "brand") ∧ is_Some (r !! "rating") ∧
  (rating_of r = None → is_Some (r !! "name")).

(** The key whose lookup fails in the loop body, if one does. *)
Definition missing_key (r : record) : option string :=
  match r !! "brand", r !! "rating" with
  | None, _ => Some "brand"
  | Some _, None => Some "rating"
  | Some _, Some raw =>
      match PyFloat.float_of_str raw, r !! "name" with
      | None, None => Some "name"
      | _, _ => None
      end
  end.

(** The line written for a record whose rating is rejected. *)
Definition warning_of (r : record) : option string :=
  match rating_of r with
  | Some _ => None
  | None =>
      brand ← r !! "brand"; raw ← r !! "rating"; name ← r !! "name";
      Some (warning raw name brand)
  end.

Definition warnings (records : list record) : list string :=
  omap warning_of records.

Definition averages (records : list record) : list (string * float) :=
  map (fun brand => (brand, mean (ratings_of brand records)))
    (brands_seen records).

Definition ranking (records : list record) : list (string * float) :=
  sort snd true (averages records).

(** [w] after [lines] have been written to standard error. *)
Definition warned (lines : list string) (w : world) : world :=
  World (files w) (opened w) (stdout w) (stderr w ++ lines).

(** The accumulators after the loop has consumed [records]. *)
Definition of_keys {V} (f : string -> V) (ks : list string) : Dict.dict V :=
  map (fun k => (k, f k)) ks.

Definition accumulated (records : list record)
  : Dict.dict float * Dict.dict Z :=
  (of_keys (fun b => total (ratings_of b records)) (brands_seen records),
   of_keys (fun b => Z.of_nat (length (ratings_of b records)))
     (brands_seen records)).

(** A record of the data model has the four fields. *)
Definition is_record (r : record) : Prop :=
  is_Some (r !! "name") ∧ is_Some (r !! "brand") ∧
  is_Some (r !! "price") ∧ is_Some (r !! "rating").

(** Each entry has an average [>=] the average of the next entry. *)
Definition in_descending_order (out : list (string * float)) : Prop :=
  ∀ i p q, out !! i = Some p → out !! S i = Some q →
    Float.geb (snd p) (snd q) = true.

(** The errors of the loader: a file that is missing or malformed. *)
Definition is_input_error (e : exn) : bool :=
  match e with
  | FileNotFoundError _ | CsvError _ => true
  | _ => false
  end.

(** The rows of the files at [paths], in the order of the paths. *)
Definition rows_of (fs : gmap string csv_file) (paths : list string)
  : list record :=
  concat (omap (fun path =>
                  match fs !! path with
                  | Some (Rows rows) => Some rows
                  | _ => None
                  end) paths).

(** A file that exists and that the CSV reader reads to its end. *)
Definition parses (fs : gmap string csv_file) (path : string) : Prop :=
  ∃ rows, fs !! path = Some (Rows rows).

(** [w] after [path] has been given to [open], after [line] has been
    printed. *)
Definition opening (path : string) (w : world) : world :=
  World (files w) (opened w ++ [path]) (stdout w) (stderr w).

Definition printed (line : string) (w : world) : world :=
  World (files w) (opened w) (stdout w ++ [line]) (stderr w).

(** * Properties *)

(** ** The model on known values *)

(** The binary64 numbers nearest to 0.1 and to 0.1 + 0.2, the largest
    finite number, the smallest positive one, and a tie rounded to even. *)
Example float_of_str_known_values :
  PyFloat.float_of_str "0.1" = Some (S754_finite false 7205759403792794 (-56)) ∧
  PyFloat.float_of_str "0.30000000000000004" =
    Some (Float.add (Float.of_decimal false 1 (-1)) (Float.of_decimal false 2 (-1))) ∧
  PyFloat.float_of_str "1.7976931348623157e308" =
    Some (S754_finite false 9007199254740991 971) ∧
  PyFloat.float_of_str "5e-324" = Some (S754_finite false 1 (-1074)) ∧
  PyFloat.float_of_str "9007199254740993" =
    Some (S754_finite false 4503599627370496 1) ∧
  PyFloat.float_of_str "1e999" = Some Float.infinity ∧
  PyFloat.float_of_str "-0" = Some (S754_zero true).
Proof. by vm_compute. Qed.

Example float_of_str_syntax :
  PyFloat.float_of_str "  -Infinity" = Some (S754_infinity true) ∧
  PyFloat.float_of_str "1_000.5" = PyFloat.float_of_str "1000.5" ∧
  PyFloat.float_of_str ".5" = PyFloat.float_of_str "5E-1" ∧
  PyFloat.float_of_str "1__0" = None ∧
  PyFloat.float_of_str "1e" = None ∧
  PyFloat.float_of_str "." = None ∧
  PyFloat.float_of_str "" = None ∧
  PyFloat.float_of_str "4,5" = None ∧
  PyFloat.float_of_str "0x10" = None.
Proof. by vm_compute. Qed.

Example fixed1_known_values :
  map Format.fixed1
    [four_and_a_half; Float.of_decimal false 42 (-1);
     Float.of_decimal false 425 (-2); Float.of_decimal false 475 (-2);
     Float.of_decimal true 5 (-2); Float.of_Z 100; Float.nan;
     S754_infinity true; S754_zero true] =
  ["4.5"; "4.2"; "4.2"; "4.8"; "-0.1"; "100.0"; "nan"; "-inf"; "-0.0"].
Proof. by vm_compute. Qed.

(** The cases of the test suite. *)
Example test_single_brand :
  calculate_average_rating xiaomi_records world0 =
  (Ok [("xiaomi", four_and_a_half)], world0).
Proof. by vm_compute. Qed.

Example test_normal :
  fst (calculate_average_rating
         [product "p1" "apple" "1000" "4.5"; product "p2" "samsung" "900" "4.7";
          product "p3" "apple" "1100" "4.9"] world0) =
  Ok [("apple", Float.of_decimal false 47 (-1));
      ("samsung", Float.of_decimal false 47 (-1))].
Proof. by vm_compute. Qed.

(** ** Dictionaries *)

Section DictFacts.
Context {V : Type}.
Implicit Types (f g : string -> V) (ks : list string) (k : string).

Lemma of_keys_ext f g ks :
  (∀ k, k ∈ ks → f k = g k) → of_keys f ks = of_keys g ks.
Proof.
  intros H. unfold of_keys. apply map_ext_in. intros k Hk.
  rewrite (H k); [done|]. by apply list_elem_of_In.
Qed.

Lemma of_keys_app f ks1 ks2 :
  of_keys f (ks1 ++ ks2) = of_keys f ks1 ++ of_keys f ks2.
Proof. apply map_app. Qed.

Lemma keys_of_keys f ks : Dict.keys (of_keys f ks) = ks.
Proof.
  unfold Dict.keys, of_keys. rewrite map_map. simpl. apply map_id.
Qed.

Lemma lookup_of_keys f ks k :
  Dict.lookup (of_keys f ks) k = if decide (k ∈ ks) then Some (f k) else None.
Proof.
  induction ks as [|k' ks IH].
  - rewrite decide_False; [done|apply not_elem_of_nil].
  - cbn [of_keys map Dict.lookup]. fold (of_keys f ks).
    destruct (String.eqb_spec k' k) as [->|Hne].
    + rewrite decide_True; [done|]. apply elem_of_cons; by left.
    + rewrite IH. destruct (decide (k ∈ ks)) as [Hin|Hout].
      * rewrite decide_True; [done|]. apply elem_of_cons; by right.
      * rewrite decide_False; [done|]. rewrite elem_of_cons.
        intros [E|E]; [by symmetry in E|done].
Qed.

Lemma set_of_keys_fresh f ks k v :
  k ∉ ks → Dict.set (of_keys f ks) k v = of_keys f ks ++ [(k, v)].
Proof.
  induction ks as [|k' ks IH]; simpl; [done|]. intros Hk.
  apply not_elem_of_cons in Hk as [Hne Hk].
  destruct (String.eqb_spec k' k) as [->|_]; [done|].
  by rewrite IH.
Qed.

Lemma set_of_keys_present f ks k v :
  NoDup ks → k ∈ ks →
  Dict.set (of_keys f ks) k v =
  of_keys (fun k' => if String.eqb k' k then v else f k') ks.
Proof.
  induction ks as [|k' ks IH]; simpl.
  - intros _ H. by apply elem_of_nil in H.
  - intros Hnd Hk. apply NoDup_cons in Hnd as [Hk' Hnd].
    destruct (String.eqb_spec k' k) as [->|Hne].
    + f_equal. apply of_keys_ext. intros k'' Hk''.
      destruct (String.eqb_spec k'' k) as [->|_]; [done|done].
    + f_equal. apply IH; [done|].
      apply elem_of_cons in Hk as [->|Hk]; [done|done].
Qed.
End DictFacts.

(** ** Brands in order of first occurrence *)

Lemma elem_of_first_occurrences x l : x ∈ first_occurrences l ↔ x ∈ l.
Proof.
  revert x. induction l as [|y l IH]; intros x; simpl; [done|].
  rewrite !elem_of_cons, list_elem_of_filter, IH.
  destruct (decide (x = y)); naive_solver.
Qed.

Lemma NoDup_first_occurrences l : NoDup (first_occurrences l).
Proof.
  induction l as [|y l IH]; simpl; [constructor|].
  apply NoDup_cons. split.
  - rewrite list_elem_of_filter. naive_solver.
  - by apply NoDup_filter.
Qed.

Lemma first_occurrences_snoc l x :
  first_occurrences (l ++ [x]) =
  if decide (x ∈ l) then first_occurrences l else first_occurrences l ++ [x].
Proof.
  induction l as [|y l IH].
  - rewrite decide_False; [done|apply not_elem_of_nil].
  - cbn [app first_occurrences]. rewrite IH.
    destruct (decide (x ∈ l)) as [Hin|Hout].
    + rewrite decide_True; [done|]. apply elem_of_cons; by right.
    + rewrite filter_app. destruct (decide (x = y)) as [->|Hne].
      * rewrite decide_True; [|apply elem_of_cons; by left].
        rewrite filter_cons_False; [|naive_solver].
        by rewrite filter_nil, app_nil_r.
      * rewrite decide_False; [|rewrite elem_of_cons; naive_solver].
        by rewrite filter_cons_True.
Qed.

(** ** Sums, counts and brands when one more record is consumed *)

Lemma total_snoc xs x : total (xs ++ [x]) = Float.add (total xs) x.
Proof. unfold total. by rewrite fold_left_app. Qed.

Lemma ratings_of_snoc brand records r :
  ratings_of brand (records ++ [r]) =
  ratings_of brand records ++
  (if decide (r !! "brand" = Some brand) then option_list (rating_of r) else []).
Proof.
  unfold ratings_of. rewrite filter_app, omap_app. f_equal.
  rewrite filter_cons, filter_nil. case_decide; [|done].
  simpl. by destruct (rating_of r).
Qed.

Lemma ratings_of_snoc_other brand records r :
  r !! "brand" ≠ Some brand →
  ratings_of brand (records ++ [r]) = ratings_of brand records.
Proof.
  intros H. rewrite ratings_of_snoc, decide_False by done. apply app_nil_r.
Qed.

Lemma ratings_of_snoc_rejected brand records r :
  rating_of r = None →
  ratings_of brand (records ++ [r]) = ratings_of brand records.
Proof.
  intros H. rewrite ratings_of_snoc, H. case_decide; apply app_nil_r.
Qed.

Lemma ratings_of_snoc_accepted brand records r x :
  r !! "brand" = Some brand → rating_of r = Some x →
  ratings_of brand (records ++ [r]) = ratings_of brand records ++ [x].
Proof. intros Hb Hx. by rewrite ratings_of_snoc, decide_True, Hx by done. Qed.

Lemma brands_seen_snoc_rejected records r :
  rating_of r = None → brands_seen (records ++ [r]) = brands_seen records.
Proof.
  intros H. unfold brands_seen. rewrite omap_app. simpl. rewrite H. simpl.
  by rewrite app_nil_r.
Qed.

Lemma brands_seen_snoc_accepted records r brand x :
  r !! "brand" = Some brand → rating_of r = Some x →
  brands_seen (records ++ [r]) =
  if decide (brand ∈ brands_seen records) then brands_seen records
  else brands_seen records ++ [brand].
Proof.
  intros Hb Hx. unfold brands_seen. rewrite omap_app. simpl.
  rewrite Hx. simpl. rewrite Hb. rewrite first_occurrences_snoc.
  destruct (decide (brand ∈ omap _ records)) as [Hin|Hout].
  - rewrite decide_True; [done|]. by apply elem_of_first_occurrences.
  - rewrite decide_False; [done|]. by rewrite elem_of_first_occurrences.
Qed.

Lemma elem_of_brands_seen brand records :
  brand ∈ brands_seen records ↔ ratings_of brand records ≠ [].
Proof.
  unfold brands_seen, ratings_of. rewrite elem_of_first_occurrences.
  rewrite list_elem_of_omap. split.
  - intros (r & Hr & Hb). destruct (rating_of r) as [x|] eqn:Hx; [|done].
    simpl in Hb. intros Hnil.
    assert (x ∈ omap rating_of (filter (λ r, r !! "brand" = Some brand) records))
      as Hin; [|rewrite Hnil in Hin; by apply elem_of_nil in Hin].
    apply list_elem_of_omap. exists r. split; [|done].
    by apply list_elem_of_filter.
  - intros Hne.
    destruct (omap rating_of (filter _ records)) as [|x xs] eqn:E; [done|].
    assert (x ∈ x :: xs) as Hin by (apply elem_of_cons; by left).
    rewrite <- E in Hin. apply list_elem_of_omap in Hin as (r & Hr & Hx).
    apply list_elem_of_filter in Hr as [Hb Hr].
    exists r. split; [done|]. by rewrite Hx.
Qed.

(** ** The loop of the aggregator *)

Lemma warned_nil w : warned [] w = w.
Proof. destruct w. unfold warned. simpl. by rewrite app_nil_r. Qed.

Lemma warned_app l1 l2 w : warned (l1 ++ l2) w = warned l2 (warned l1 w).
Proof. unfold warned. simpl. by rewrite app_assoc. Qed.

Lemma warnings_cons r records :
  warnings (r :: records) = option_list (warning_of r) ++ warnings records.
Proof. unfold warnings. simpl. by destruct (warning_of r). Qed.

Lemma bind_Ok {A B} (c : M A) (k : A -> M B) w a w' :
  c w = (Ok a, w') → bind c k w = k a w'.
Proof. intros H. unfold bind. by rewrite H. Qed.

Lemma bind_Raise {A B} (c : M A) (k : A -> M B) w e w' :
  c w = (Raise e, w') → bind c k w = (Raise e, w').
Proof. intros H. unfold bind. by rewrite H. Qed.

Lemma getitem_Some r key v w : r !! key = Some v → getitem r key w = (Ok v, w).
Proof. intros H. unfold getitem. by rewrite H. Qed.

Lemma getitem_None r key w :
  r !! key = None → getitem r key w = (Raise (KeyError key), w).
Proof. intros H. unfold getitem. by rewrite H. Qed.

Lemma get_of_keys {V} (f : string -> V) ks k w :
  k ∈ ks → Dict.get (of_keys f ks) k w = (Ok (f k), w).
Proof. intros H. unfold Dict.get. by rewrite lookup_of_keys, decide_True. Qed.

(** The [try] statement on a record that has a rating field. *)
Lemma parse_rating_accepted r brand raw x w :
  r !! "rating" = Some raw → PyFloat.float_of_str raw = Some x →
  parse_rating r brand w = (Ok (Some x), w).
Proof.
  intros Hraw Hx. unfold parse_rating, try_except.
  rewrite (bind_Ok _ _ w raw w) by by apply getitem_Some.
  unfold bind, float_. by rewrite Hx.
Qed.

Lemma parse_rating_rejected r brand raw name w :
  r !! "rating" = Some raw → PyFloat.float_of_str raw = None →
  r !! "name" = Some name →
  parse_rating r brand w = (Ok None, warned [warning raw name brand] w).
Proof.
  intros Hraw Hx Hn. unfold parse_rating, try_except.
  rewrite (bind_Ok _ _ w raw w) by by apply getitem_Some.
  unfold bind at 1, float_. rewrite Hx. unfold raise, is_ValueError.
  rewrite (bind_Ok _ _ w raw w) by by apply getitem_Some.
  rewrite (bind_Ok _ _ w name w) by by apply getitem_Some.
  done.
Qed.

Lemma parse_rating_nameless r brand raw w :
  r !! "rating" = Some raw → PyFloat.float_of_str raw = None →
  r !! "name" = None →
  parse_rating r brand w = (Raise (KeyError "name"), w).
Proof.
  intros Hraw Hx Hn. unfold parse_rating, try_except.
  rewrite (bind_Ok _ _ w raw w) by by apply getitem_Some.
  unfold bind at 1, float_. rewrite Hx. unfold raise, is_ValueError.
  rewrite (bind_Ok _ _ w raw w) by by apply getitem_Some.
  by rewrite (bind_Raise _ _ w (KeyError "name") w) by by apply getitem_None.
Qed.

Lemma parse_rating_missing r brand w :
  r !! "rating" = None →
  parse_rating r brand w = (Raise (KeyError "rating"), w).
Proof.
  intros Hraw. unfold parse_rating, try_except.
  by rewrite (bind_Raise _ _ w (KeyError "rating") w) by by apply getitem_None.
Qed.

(** Adding a rating for a brand the two accumulators hold. *)
Lemma add_rating_present (f : string -> float) (g : string -> Z) ks brand x w :
  NoDup ks → brand ∈ ks →
  add_rating (of_keys f ks, of_keys g ks) brand x w =
  (Ok (of_keys (fun k => if String.eqb k brand then Float.add (f brand) x else f k) ks,
       of_keys (fun k => if String.eqb k brand then g brand + 1 else g k) ks),
   w).
Proof.
  intros Hnd Hin. unfold add_rating, Dict.contains.
  rewrite lookup_of_keys, decide_True by done. cbn [negb].
  rewrite (bind_Ok _ _ w (f brand) w) by by apply get_of_keys.
  rewrite (bind_Ok _ _ w (g brand) w) by by apply get_of_keys.
  by rewrite !set_of_keys_present.
Qed.

(** Adding a rating for a brand that is new to the accumulators. *)
Lemma add_rating_fresh (f : string -> float) (g : string -> Z) ks brand x w :
  NoDup ks → brand ∉ ks → f brand = Float.zero → g brand = 0 →
  add_rating (of_keys f ks, of_keys g ks) brand x w =
  (Ok (of_keys (fun k => if String.eqb k brand then Float.add (f brand) x else f k)
         (ks ++ [brand]),
       of_keys (fun k => if String.eqb k brand then g brand + 1 else g k)
         (ks ++ [brand])),
   w).
Proof.
  intros Hnd Hout Hf Hg.
  assert (NoDup (ks ++ [brand])) as Hnd'.
  { apply NoDup_app. split_and!; [done| |apply NoDup_singleton].
    intros k Hk Hk'. apply list_elem_of_singleton in Hk'. by subst. }
  assert (brand ∈ ks ++ [brand]) as Hin.
  { apply elem_of_app. right. by apply list_elem_of_singleton. }
  rewrite <- (add_rating_present f g (ks ++ [brand]) brand x w) by done.
  unfold add_rating at 1, Dict.contains.
  rewrite lookup_of_keys, decide_False by done. cbn [negb].
  rewrite !set_of_keys_fresh by done. rewrite <- Hf, <- Hg.
  unfold add_rating, Dict.contains.
  rewrite lookup_of_keys, decide_True by done. cbn [negb].
  by rewrite !of_keys_app.
Qed.

Lemma accumulate_accumulated records r w :
  readable r →
  accumulate (accumulated records) r w =
  (Ok (accumulated (records ++ [r])), warned (option_list (warning_of r)) w).
Proof.
  intros ([brand Hb] & [raw Hraw] & Hname). unfold accumulate.
  rewrite (bind_Ok _ _ w brand w) by by apply getitem_Some.
  destruct (PyFloat.float_of_str raw) as [x|] eqn:Hx.
  - (* the rating is accepted *)
    assert (rating_of r = Some x) as Hr by (unfold rating_of; by rewrite Hraw).
    rewrite (bind_Ok _ _ w (Some x) w) by by eapply parse_rating_accepted.
    unfold warning_of. rewrite Hr. cbn [option_list]. rewrite warned_nil.
    unfold accumulated.
    rewrite (brands_seen_snoc_accepted records r brand x) by done.
    destruct (decide (brand ∈ brands_seen records)) as [Hin|Hout].
    + rewrite add_rating_present by (apply NoDup_first_occurrences || done).
      do 3 f_equal; apply of_keys_ext; intros k Hk;
        destruct (String.eqb_spec k brand) as [->|Hne].
      * rewrite (ratings_of_snoc_accepted brand records r x) by done.
        by rewrite total_snoc.
      * rewrite ratings_of_snoc_other; [done|]. rewrite Hb. congruence.
      * rewrite (ratings_of_snoc_accepted brand records r x) by done.
        rewrite length_app. simpl. lia.
      * rewrite ratings_of_snoc_other; [done|]. rewrite Hb. congruence.
    + assert (ratings_of brand records = []) as Hnil.
      { destruct (ratings_of brand records) eqn:E; [done|].
        exfalso. apply Hout, elem_of_brands_seen. by rewrite E. }
      rewrite add_rating_fresh;
        [|apply NoDup_first_occurrences|done|by rewrite Hnil..].
      do 3 f_equal; apply of_keys_ext; intros k Hk;
        destruct (String.eqb_spec k brand) as [->|Hne].
      * rewrite (ratings_of_snoc_accepted brand records r x) by done.
        by rewrite total_snoc.
      * rewrite ratings_of_snoc_other; [done|]. rewrite Hb. congruence.
      * rewrite (ratings_of_snoc_accepted brand records r x) by done.
        rewrite length_app. simpl. lia.
      * rewrite ratings_of_snoc_other; [done|]. rewrite Hb. congruence.
  - (* the rating is rejected *)
    assert (rating_of r = None) as Hr by (unfold rating_of; by rewrite Hraw).
    destruct (Hname Hr) as [name Hn].
    rewrite (bind_Ok _ _ w None (warned [warning raw name brand] w))
      by by eapply parse_rating_rejected.
    unfold warning_of. rewrite Hr, Hb, Hraw, Hn. cbn. unfold ret.
    unfold accumulated. rewrite brands_seen_snoc_rejected by done.
    do 3 f_equal; apply of_keys_ext; intros k Hk;
      by rewrite ratings_of_snoc_rejected.
Qed.

Lemma readable_missing_key r : readable r ↔ missing_key r = None.
Proof.
  unfold readable, missing_key, rating_of.
  destruct (r !! "brand") as [brand|]; [|split; [intros ([? [=]] & _)|done]].
  destruct (r !! "rating") as [raw|]; simpl;
    [|split; [intros (_ & [? [=]] & _)|done]].
  destruct (PyFloat.float_of_str raw) as [x|].
  - split; [done|]. intros _. split_and!; by eauto.
  - destruct (r !! "name") as [name|].
    + split; [done|]. intros _. split_and!; by eauto.
    + split; [|done]. intros (_ & _ & H). by destruct (H eq_refl).
Qed.

Lemma accumulate_missing_key st r k w :
  missing_key r = Some k → accumulate st r w = (Raise (KeyError k), w).
Proof.
  unfold missing_key, accumulate.
  destruct (r !! "brand") as [brand|] eqn:Hb.
  - rewrite (bind_Ok _ _ w brand w) by by apply getitem_Some.
    destruct (r !! "rating") as [raw|] eqn:Hraw.
    + destruct (PyFloat.float_of_str raw) as [x|] eqn:Hx; [done|].
      destruct (r !! "name") as [name|] eqn:Hn; [done|]. intros [= <-].
      by erewrite bind_Raise by by eapply parse_rating_nameless.
    + intros [= <-].
      by erewrite bind_Raise by by eapply parse_rating_missing.
  - intros [= <-]. by erewrite bind_Raise by by apply getitem_None.
Qed.

(** Every list of records is readable throughout or has a first record
    whose lookup fails. *)
Lemma first_unreadable records :
  Forall readable records ∨
  ∃ pre r post k,
    records = pre ++ r :: post ∧ Forall readable pre ∧ missing_key r = Some k.
Proof.
  induction records as [|r records IH]; [by left|].
  destruct (missing_key r) as [k|] eqn:Hk.
  - right. by exists [], r, records, k.
  - apply readable_missing_key in Hk. destruct IH as [IH|IH].
    + left. by constructor.
    + right. destruct IH as (pre & r' & post & k & -> & Hpre & Hk').
      exists (r :: pre), r', post, k. split_and!; [done| |done].
      by constructor.
Qed.

Lemma for_each_accumulate pre records w :
  Forall readable records →
  for_each records (accumulated pre) accumulate w =
  (Ok (accumulated (pre ++ records)), warned (warnings records) w).
Proof.
  intros H. revert pre w. induction H as [|r records Hr _ IH]; intros pre w.
  - simpl. unfold ret, warnings. simpl. by rewrite app_nil_r, warned_nil.
  - cbn [for_each].
    erewrite bind_Ok by by apply accumulate_accumulated.
    rewrite IH, <- app_assoc. cbn [app].
    by rewrite warnings_cons, warned_app.
Qed.

Lemma for_each_accumulate_fails pre records r post k w :
  Forall readable records → missing_key r = Some k →
  for_each (records ++ r :: post) (accumulated pre) accumulate w =
  (Raise (KeyError k), warned (warnings records) w).
Proof.
  intros H Hk. revert pre w. induction H as [|r' records Hr _ IH]; intros pre w.
  - cbn [app for_each].
    erewrite bind_Raise by by apply accumulate_missing_key.
    unfold warnings. simpl. by rewrite warned_nil.
  - cbn [app for_each].
    erewrite bind_Ok by by apply accumulate_accumulated.
    rewrite IH. by rewrite warnings_cons, warned_app.
Qed.

(** The list comprehension over the brands of the accumulators. *)
Lemma comprehension_averages (f : string -> float) (g : string -> Z) ks0 ks w :
  (∀ k, k ∈ ks → k ∈ ks0 ∧ g k ≠ 0) →
  comprehension
    (fun brand =>
       total <- Dict.get (of_keys f ks0) brand ;;
       count <- Dict.get (of_keys g ks0) brand ;;
       average <- truediv total count ;;
       ret (brand, average)) ks w =
  (Ok (map (fun k => (k, Float.div (f k) (Float.of_Z (g k)))) ks), w).
Proof.
  induction ks as [|k ks IH]; intros H; [done|].
  destruct (H k) as [Hk Hg]; [apply elem_of_cons; by left|].
  cbn [comprehension map].
  erewrite bind_Ok; [|]; cycle 1.
  { erewrite bind_Ok by by apply get_of_keys.
    erewrite bind_Ok by by apply get_of_keys.
    unfold truediv. apply Z.eqb_neq in Hg. rewrite Hg.
    unfold bind, ret. reflexivity. }
  erewrite bind_Ok; [reflexivity|]. apply IH.
  intros k' Hk'. apply H, elem_of_cons. by right.
Qed.

Lemma count_positive brand records :
  brand ∈ brands_seen records → Z.of_nat (length (ratings_of brand records)) ≠ 0.
Proof.
  intros H. apply elem_of_brands_seen in H.
  destruct (ratings_of brand records); [done|]. simpl. lia.
Qed.

(** *** The aggregator as a function of its argument

    On records that are all readable the aggregator returns [ranking] and
    writes [warnings]; otherwise it stops at the first record whose lookup
    fails, with the warnings of the records before it. *)
Lemma calculate_average_rating_readable records w :
  Forall readable records →
  calculate_average_rating records w =
  (Ok (ranking records), warned (warnings records) w).
Proof.
  intros H. unfold calculate_average_rating.
  change (@nil (string * float), @nil (string * Z)) with (accumulated []).
  erewrite bind_Ok by by apply for_each_accumulate.
  cbn [app accumulated]. rewrite keys_of_keys.
  erewrite bind_Ok; [reflexivity|].
  apply comprehension_averages. intros k Hk. split; [done|].
  by apply count_positive.
Qed.

Lemma calculate_average_rating_unreadable pre r post k w :
  Forall readable pre → missing_key r = Some k →
  calculate_average_rating (pre ++ r :: post) w =
  (Raise (KeyError k), warned (warnings pre) w).
Proof.
  intros H Hk. unfold calculate_average_rating.
  change (@nil (string * float), @nil (string * Z)) with (accumulated []).
  by erewrite bind_Raise by by apply for_each_accumulate_fails.
Qed.

Lemma calculate_average_rating_Ok records w out w' :
  calculate_average_rating records w = (Ok out, w') →
  Forall readable records ∧ out = ranking records ∧
  w' = warned (warnings records) w.
Proof.
  intros H. destruct (first_unreadable records) as [Hr|Hr].
  - rewrite calculate_average_rating_readable in H by done.
    by injection H as <- <-.
  - destruct Hr as (pre & r & post & k & -> & Hpre & Hk).
    by rewrite (calculate_average_rating_unreadable pre r post k) in H.
Qed.

(** ** Comparison of floats *)

Module FloatOrder.

Lemma compare_antisym x y : SFcompare y x = CompOpp <$> SFcompare x y.
Proof.
  destruct x as [sx|sx| |sx mx ex], y as [sy|sy| |sy my ey]; simpl;
    try done; try (by destruct sx); try (by destruct sy);
    try (by destruct sx, sy).
  destruct sx, sy; try done; f_equal;
    rewrite (Z.compare_antisym ey ex); destruct (ey ?= ex); simpl; try done;
    try f_equal; symmetry; apply (Pos.compare_cont_antisym mx my Eq).
Qed.

Lemma compare_Some x y :
  Float.is_nan x = false → Float.is_nan y = false → is_Some (SFcompare x y).
Proof. destruct x, y; simpl; intros; by eauto. Qed.

(** Two numbers that are not NaN are comparable: when [x < y] is false,
    [y <= x] is true. *)
Lemma not_ltb_leb x y :
  Float.is_nan x = false → Float.is_nan y = false →
  Float.ltb x y = false → Float.leb y x = true.
Proof.
  intros Hx Hy. unfold Float.ltb, Float.leb, SFltb, SFleb.
  rewrite (compare_antisym x y).
  destruct (compare_Some x y Hx Hy) as [c ->]. by destruct c.
Qed.

Lemma ltb_leb x y : Float.ltb x y = true → Float.leb x y = true.
Proof.
  unfold Float.ltb, Float.leb, SFltb, SFleb.
  by destruct (SFcompare x y) as [[]|].
Qed.

(** [x == y] holds for identical numbers and for two zeros only. *)
Lemma eqb_cases x y :
  Float.eqb x y = true →
  x = y ∨ ∃ sx sy, x = S754_zero sx ∧ y = S754_zero sy.
Proof.
  unfold Float.eqb, SFeqb.
  destruct x as [sx|sx| |sx mx ex], y as [sy|sy| |sy my ey]; simpl;
    try done; try (by destruct sx); try (by destruct sy).
  - intros _. right. by eauto.
  - destruct sx, sy; try done; by left.
  - destruct sx, sy; try done;
      destruct (ex ?= ey) eqn:He; try done;
      apply Z.compare_eq in He; subst;
      destruct (Pos.compare_cont Eq mx my) eqn:Hm; try done;
      apply Pos.compare_eq in Hm; subst; by left.
Qed.

Lemma eqb_refl x : Float.is_nan x = false → Float.eqb x x = true.
Proof.
  unfold Float.eqb, SFeqb. destruct x as [s|s| |s m e]; simpl; try done.
  - by destruct s.
  - intros _. destruct s; rewrite Z.compare_refl;
      fold (Pos.compare m m); by rewrite Pos.compare_refl.
Qed.

(** Two numbers equal to a third are not in the relation [<]. *)
Lemma eqb_not_ltb x y v :
  Float.eqb x v = true → Float.eqb y v = true → Float.ltb y x = false.
Proof.
  intros Hx Hy.
  assert (Float.eqb y x = true) as H.
  { destruct (eqb_cases _ _ Hx) as [->|(sx & sv & -> & ->)]; [done|].
    destruct (eqb_cases _ _ Hy) as [->|(sy & sv' & -> & _)]; done. }
  revert H. unfold Float.eqb, Float.ltb, SFeqb, SFltb.
  by destruct (SFcompare y x) as [[]|].
Qed.

End FloatOrder.

(** ** Sorting *)

Section SortFacts.
Context {A : Type} (key : A -> float).
Implicit Types (x y : A) (l : list A).

Lemma insort_Permutation x l : insort key x l ≡ₚ x :: l.
Proof.
  induction l as [|y l IH]; simpl; [done|].
  destruct (Float.ltb (key y) (key x)); [|done].
  rewrite IH. apply Permutation_swap.
Qed.

Lemma sort_ascending_Permutation l : sort_ascending key l ≡ₚ l.
Proof.
  induction l as [|x l IH]; simpl; [done|].
  by rewrite insort_Permutation, IH.
Qed.

Lemma sort_Permutation reversed l : sort key reversed l ≡ₚ l.
Proof.
  unfold sort. destruct reversed; [|apply sort_ascending_Permutation].
  by rewrite reverse_Permutation, sort_ascending_Permutation,
    reverse_Permutation.
Qed.

Lemma insort_Sorted x l :
  Float.is_nan (key x) = false → Forall (fun y => Float.is_nan (key y) = false) l →
  Sorted (ascending key) l → Sorted (ascending key) (insort key x l).
Proof.
  intros Hx Hl Hs. induction Hs as [|y l Hs IH Hhd]; simpl.
  - by repeat constructor.
  - apply Forall_cons in Hl as [Hy Hl].
    destruct (Float.ltb (key y) (key x)) eqn:Hlt.
    + constructor; [by apply IH|].
      destruct Hhd as [|z l Hyz]; simpl.
      * constructor. by apply FloatOrder.ltb_leb.
      * destruct (Float.ltb (key z) (key x)); constructor;
          [done|by apply FloatOrder.ltb_leb].
    + constructor; [by constructor|]. constructor.
      by apply FloatOrder.not_ltb_leb.
Qed.

Lemma sort_ascending_Sorted l :
  Forall (fun y => Float.is_nan (key y) = false) l →
  Sorted (ascending key) (sort_ascending key l).
Proof.
  induction 1 as [|x l Hx Hl IH]; simpl; [constructor|].
  apply insort_Sorted; [done| |done].
  by rewrite sort_ascending_Permutation.
Qed.

(** Without NaN among the keys, [sort(reverse=True)] leaves the list in
    descending order of keys. *)
Lemma sort_reverse_Sorted l :
  Forall (fun y => Float.is_nan (key y) = false) l →
  Sorted (descending key) (sort key true l).
Proof.
  intros H. unfold sort. apply Sorted_reverse.
  apply sort_ascending_Sorted. by rewrite reverse_Permutation.
Qed.

(** The sort is stable: the elements whose key equals [v] keep their
    order. *)
Lemma insort_stable v x l :
  filter (fun y => Float.eqb (key y) v = true) (insort key x l) =
  filter (fun y => Float.eqb (key y) v = true) (x :: l).
Proof.
  induction l as [|y l IH]; simpl; [done|].
  destruct (Float.ltb (key y) (key x)) eqn:Hlt; [|done].
  rewrite (filter_cons _ y), IH, !(filter_cons _ x), !(filter_cons _ y).
  destruct (decide (Float.eqb (key x) v = true)) as [Hx|Hx]; [|done].
  destruct (decide (Float.eqb (key y) v = true)) as [Hy|Hy]; [|done].
  by rewrite (FloatOrder.eqb_not_ltb _ _ _ Hx Hy) in Hlt.
Qed.

Lemma sort_ascending_stable v l :
  filter (fun y => Float.eqb (key y) v = true) (sort_ascending key l) =
  filter (fun y => Float.eqb (key y) v = true) l.
Proof.
  induction l as [|x l IH]; simpl; [done|].
  by rewrite insort_stable, !filter_cons, IH.
Qed.

Lemma sort_stable reversed v l :
  filter (fun y => Float.eqb (key y) v = true) (sort key reversed l) =
  filter (fun y => Float.eqb (key y) v = true) l.
Proof.
  unfold sort. destruct reversed; [|apply sort_ascending_stable].
  by rewrite filter_reverse, sort_ascending_stable, filter_reverse,
    reverse_involutive.
Qed.

(** In a sorted list each element is related to the next one. *)
Lemma Sorted_lookup_next (R : relation A) l i x y :
  Sorted R l → l !! i = Some x → l !! S i = Some y → R x y.
Proof.
  intros Hs. revert i. induction Hs as [|z l Hs IH Hhd]; intros i; [done|].
  destruct i as [|i]; simpl.
  - intros [= ->] Hy. destruct Hhd as [|z' l' Hr]; [done|].
    simpl in Hy. by injection Hy as ->.
  - apply IH.
Qed.
End SortFacts.

(** ** The entries of the ranking *)

Lemma elem_of_ranking brand average records :
  (brand, average) ∈ ranking records ↔
  brand ∈ brands_seen records ∧ average = mean (ratings_of brand records).
Proof.
  unfold ranking. rewrite sort_Permutation. unfold averages.
  rewrite list_elem_of_fmap. split.
  - intros (b & [= -> ->] & Hb). done.
  - intros [Hb ->]. by exists brand.
Qed.

Lemma ranking_brands records : (ranking records).*1 ≡ₚ brands_seen records.
Proof.
  unfold ranking. rewrite sort_Permutation. unfold averages.
  rewrite <- list_fmap_compose. simpl. by rewrite list_fmap_id.
Qed.

Lemma record_readable r : is_record r → readable r.
Proof. intros (Hn & Hb & _ & Hr). by split_and!. Qed.

Lemma filter_averages v records :
  (filter (fun p => Float.eqb (snd p) v = true) (averages records)).*1 =
  filter (fun b => Float.eqb (mean (ratings_of b records)) v = true)
    (brands_seen records).
Proof.
  unfold averages. induction (brands_seen records) as [|b bs IH]; [done|].
  cbn [map]. rewrite !filter_cons. simpl.
  destruct (decide (Float.eqb (mean (ratings_of b records)) v = true));
    [rewrite fmap_cons; simpl|]; by rewrite IH.
Qed.

(** * The properties of the specification *)

(** C1.  Every pair (brand, average) in the output of
    [calculate_average_rating] has as average the sum of the ratings that
    [float] accepted among the records bearing that brand, divided by their
    number; the sum is the one the loop forms, from 0.0 and in the order of
    the records, and there is at least one such rating. *)
Theorem average_is_mean_of_parsed_ratings records w out w' brand average :
  calculate_average_rating records w = (Ok out, w') →
  (brand, average) ∈ out →
  ratings_of brand records ≠ [] ∧
  average =
    Float.div (fold_left Float.add (ratings_of brand records) Float.zero)
      (Float.of_Z (Z.of_nat (length (ratings_of brand records)))).
Proof.
  intros H Hin. apply calculate_average_rating_Ok in H as (_ & -> & _).
  apply elem_of_ranking in Hin as [Hb ->].
  split; [by apply elem_of_brands_seen|done].
Qed.

Lemma average_is_mean_of_parsed_ratings_witness :
  ratings_of "xiaomi" xiaomi_records ≠ [] ∧
  four_and_a_half =
    Float.div (fold_left Float.add (ratings_of "xiaomi" xiaomi_records) Float.zero)
      (Float.of_Z (Z.of_nat (length (ratings_of "xiaomi" xiaomi_records)))).
Proof.
  apply (average_is_mean_of_parsed_ratings xiaomi_records world0
           [("xiaomi", four_and_a_half)] world0).
  - vm_compute. reflexivity.
  - apply list_elem_of_here.
Defined.

(** C2 fails as stated: a rating [nan] is accepted, the average of its brand
    is a NaN, and [nan >= 1.0] is false, so the first two entries of the
    output are not in the order [>=]. *)
Lemma nan_average_breaks_descending_order :
  calculate_average_rating nan_records world0 =
    (Ok [("a", Float.nan); ("b", one)], world0) ∧
  ¬ in_descending_order [("a", Float.nan); ("b", one)].
Proof.
  split; [vm_compute; reflexivity|].
  intros H. specialize (H 0%nat _ _ eq_refl eq_refl). discriminate H.
Qed.

(** C2, amended.  When no average in the output is a NaN, the output of
    [calculate_average_rating] is in descending order of average (each
    entry is [>=] the next one), and for every value the brands whose
    average equals it stand in the output in the order in which they were
    first met with an accepted rating. *)
Theorem ranking_descending_and_stable records w out w' :
  calculate_average_rating records w = (Ok out, w') →
  Forall (fun p => Float.is_nan (snd p) = false) out →
  in_descending_order out ∧
  ∀ v, (filter (fun p => Float.eqb (snd p) v = true) out).*1 =
       filter (fun b => Float.eqb (mean (ratings_of b records)) v = true)
         (brands_seen records).
Proof.
  intros H Hnan. apply calculate_average_rating_Ok in H as (_ & -> & _).
  unfold ranking in *. rewrite sort_Permutation in Hnan. split.
  - intros i p q Hp Hq.
    by apply (Sorted_lookup_next (descending snd) _ i p q
                (sort_reverse_Sorted snd _ Hnan)).
  - intros v. rewrite sort_stable.
    apply filter_averages.
Qed.

Lemma ranking_descending_and_stable_witness :
  in_descending_order (ranking sorting_records) ∧
  ∀ v, (filter (fun p => Float.eqb (snd p) v = true) (ranking sorting_records)).*1 =
       filter (fun b => Float.eqb (mean (ratings_of b sorting_records)) v = true)
         (brands_seen sorting_records).
Proof.
  apply (ranking_descending_and_stable sorting_records world0 _ world0).
  - vm_compute. reflexivity.
  - vm_compute. repeat constructor.
Defined.

(** The ranking of the example: 5.0 twice, in the order b, d of the
    records, then 4.0 and 3.0. *)
Example ranking_sorting_records :
  (ranking sorting_records).*1 = ["b"; "d"; "c"; "a"].
Proof. vm_compute. reflexivity. Qed.

Lemma ratings_of_nil brand records :
  (∀ r, r ∈ records → r !! "brand" = Some brand → rating_of r = None) →
  ratings_of brand records = [].
Proof.
  intros H. unfold ratings_of.
  destruct (omap rating_of (filter _ records)) as [|x xs] eqn:E; [done|].
  assert (x ∈ x :: xs) as Hin by apply list_elem_of_here.
  rewrite <- E in Hin. apply list_elem_of_omap in Hin as (r & Hr & Hx).
  apply list_elem_of_filter in Hr as [Hb Hr]. by rewrite (H r Hr Hb) in Hx.
Qed.

(** C6.  [calculate_average_rating] never divides by zero.  In its output
    every brand appears once; a brand appears exactly when at least one of
    the records bearing it has a rating that [float] accepts, the number of
    such ratings being the divisor of its average; a brand all of whose
    records have rejected ratings does not appear. *)
Theorem brands_unique_with_positive_count records w :
  (∀ w', calculate_average_rating records w ≠ (Raise ZeroDivisionError, w')) ∧
  (∀ out w', calculate_average_rating records w = (Ok out, w') →
     NoDup out.*1 ∧
     (∀ brand, brand ∈ out.*1 ↔ (0 < length (ratings_of brand records))%nat) ∧
     (∀ brand average, (brand, average) ∈ out →
        average = Float.div (total (ratings_of brand records))
                    (Float.of_Z (Z.of_nat (length (ratings_of brand records))))) ∧
     (∀ brand,
        (∀ r, r ∈ records → r !! "brand" = Some brand → rating_of r = None) →
        brand ∉ out.*1)).
Proof.
  split.
  - intros w' H. destruct (first_unreadable records) as [Hr|Hr].
    + by rewrite calculate_average_rating_readable in H.
    + destruct Hr as (pre & r & post & k & -> & Hpre & Hk).
      by rewrite (calculate_average_rating_unreadable pre r post k) in H.
  - intros out w' H. apply calculate_average_rating_Ok in H as (_ & -> & _).
    assert (∀ brand, brand ∈ (ranking records).*1 ↔
                     (0 < length (ratings_of brand records))%nat) as Hin.
    { intros brand. rewrite ranking_brands, elem_of_brands_seen.
      destruct (ratings_of brand records); simpl; [split; [done|lia]|].
      split; [lia|done]. }
    split_and!; [|done| |].
    + rewrite ranking_brands. apply NoDup_first_occurrences.
    + intros brand average Hb. by apply elem_of_ranking in Hb as [_ ->].
    + intros brand Hb. rewrite Hin, ratings_of_nil by done. simpl. lia.
Qed.

Lemma brands_unique_with_positive_count_witness :
  let out := [("apple", Float.of_decimal false 49 (-1))] in
  NoDup out.*1 ∧
  (∀ brand, brand ∈ out.*1 ↔ (0 < length (ratings_of brand invalid_records))%nat) ∧
  (∀ brand average, (brand, average) ∈ out →
     average = Float.div (total (ratings_of brand invalid_records))
                 (Float.of_Z (Z.of_nat (length (ratings_of brand invalid_records))))) ∧
  (∀ brand,
     (∀ r, r ∈ invalid_records → r !! "brand" = Some brand → rating_of r = None) →
     brand ∉ out.*1).
Proof.
  apply (proj2 (brands_unique_with_positive_count invalid_records world0)
           _ (warned (warnings invalid_records) world0)).
  vm_compute. reflexivity.
Defined.

Lemma ratings_of_without (b1 b2 : string) records :
  b1 ≠ b2 →
  ratings_of b1 (filter (fun r => r !! "brand" ≠ Some b2) records) =
  ratings_of b1 records.
Proof.
  intros Hne. unfold ratings_of. f_equal. rewrite list_filter_filter.
  apply list_filter_iff. intros r. split; [by intros [? _]|].
  intros H. split; [done|]. rewrite H. congruence.
Qed.

(** C7.  Brands are matched as exact strings: when records of brand [Apple]
    and records of brand [apple] each include an accepted rating, the
    output has one entry for each spelling, and only one; the average of
    each is the mean of the ratings of the records bearing exactly that
    spelling, and is the same with the records of the other spelling
    removed. *)
Theorem brands_are_case_sensitive records w :
  Forall readable records →
  ratings_of "Apple" records ≠ [] → ratings_of "apple" records ≠ [] →
  ∃ out w',
    calculate_average_rating records w = (Ok out, w') ∧
    (∀ a, ("Apple", a) ∈ out ↔ a = mean (ratings_of "Apple" records)) ∧
    (∀ a, ("apple", a) ∈ out ↔ a = mean (ratings_of "apple" records)) ∧
    NoDup out.*1 ∧
    ratings_of "Apple" (filter (fun r => r !! "brand" ≠ Some "apple") records) =
      ratings_of "Apple" records ∧
    ratings_of "apple" (filter (fun r => r !! "brand" ≠ Some "Apple") records) =
      ratings_of "apple" records.
Proof.
  intros Hr H1 H2. eexists _, _.
  split; [by apply calculate_average_rating_readable|].
  apply elem_of_brands_seen in H1, H2. split_and!.
  - intros a. rewrite elem_of_ranking. naive_solver.
  - intros a. rewrite elem_of_ranking. naive_solver.
  - rewrite ranking_brands. apply NoDup_first_occurrences.
  - by apply ratings_of_without.
  - by apply ratings_of_without.
Qed.

Lemma brands_are_case_sensitive_witness :
  ∃ out w',
    calculate_average_rating apple_records world0 = (Ok out, w') ∧
    (∀ a, ("Apple", a) ∈ out ↔ a = mean (ratings_of "Apple" apple_records)) ∧
    (∀ a, ("apple", a) ∈ out ↔ a = mean (ratings_of "apple" apple_records)) ∧
    NoDup out.*1 ∧
    ratings_of "Apple" (filter (fun r => r !! "brand" ≠ Some "apple") apple_records) =
      ratings_of "Apple" apple_records ∧
    ratings_of "apple" (filter (fun r => r !! "brand" ≠ Some "Apple") apple_records) =
      ratings_of "apple" apple_records.
Proof.
  apply (brands_are_case_sensitive apple_records world0).
  - repeat constructor; apply readable_missing_key; vm_compute; reflexivity.
  - vm_compute. discriminate.
  - vm_compute. discriminate.
Defined.

(** The two entries of the example, as in the test suite: 4.9 for [apple],
    4.5 for [Apple]. *)
Example apple_records_ranking :
  calculate_average_rating apple_records world0 =
  (Ok [("apple", Float.of_decimal false 49 (-1)); ("Apple", four_and_a_half)],
   world0).
Proof. vm_compute. reflexivity. Qed.

(** ** Records with a rejected rating *)










(** The example of the test suite: the average of [apple] is 4.9, not
    the 2.45 that a rating counted as zero would give, and one line is
    written. *)
Example invalid_records_ranking :
  calculate_average_rating invalid_records world0 =
  (Ok [("apple", Float.of_decimal false 49 (-1))],
   World ∅ [] []
     ["Предупреждение: некорректный рейтинг 'invalid' для товара p1, бренд apple. Пропускаем."]).
Proof. vm_compute. reflexivity. Qed.

(** The handler itself reads the key [name]: a rejected rating on a record
    without it ends the call with KeyError, before any line is written. *)
Example rejected_rating_without_name :
  calculate_average_rating
    [{[ "brand" := "apple"; "rating" := "invalid" ]}] world0 =
  (Raise (KeyError "name"), world0).
Proof. by vm_compute. Qed.

(** C10.  When a record lacks the key [brand] or the key [rating],
    [calculate_average_rating] raises KeyError: the record is not skipped
    and no output is returned. *)
Theorem missing_key_raises_KeyError records w :
  Exists (fun r => r !! "brand" = None ∨ r !! "rating" = None) records →
  ∃ key w', calculate_average_rating records w = (Raise (KeyError key), w').
Proof.
  intros H. destruct (first_unreadable records) as [Hr|Hr].
  - exfalso. apply Exists_exists in H as (r & Hin & Hmiss).
    rewrite Forall_forall in Hr. destruct (Hr r Hin) as ([? Hb] & [? Hraw] & _).
    destruct Hmiss; congruence.
  - destruct Hr as (pre & r & post & k & -> & Hpre & Hk).
    eexists _, _. by apply calculate_average_rating_unreadable.
Qed.

Lemma missing_key_raises_KeyError_witness :
  ∃ key w',
    calculate_average_rating brandless_records world0 = (Raise (KeyError key), w').
Proof.
  apply (missing_key_raises_KeyError brandless_records world0).
  apply Exists_cons_tl, Exists_cons_hd. left. vm_compute. reflexivity.
Defined.

Example brandless_records_KeyError :
  calculate_average_rating brandless_records world0 =
  (Raise (KeyError "brand"), world0).
Proof. vm_compute. reflexivity. Qed.

(** C9.  The rating of a record is accepted exactly when [float] accepts
    its text: a single record then yields its brand with the average
    [(0.0 + x) / 1], and otherwise yields nothing but a warning.  The texts
    [inf], [nan], [1e2] and a numeral between spaces are accepted. *)
Theorem float_accepts_more_than_plain_decimals :
  (∀ name brand price raw w,
     calculate_average_rating [product name brand price raw] w =
     match PyFloat.float_of_str raw with
     | Some x =>
         (Ok [(brand, Float.div (Float.add Float.zero x) (Float.of_Z 1))], w)
     | None => (Ok [], warned [warning raw name brand] w)
     end) ∧
  PyFloat.float_of_str "inf" = Some Float.infinity ∧
  PyFloat.float_of_str "nan" = Some Float.nan ∧
  PyFloat.float_of_str "1e2" = Some (Float.of_Z 100) ∧
  PyFloat.float_of_str " 4.5 " = Some four_and_a_half ∧
  PyFloat.float_of_str "4.5" = Some four_and_a_half ∧
  PyFloat.float_of_str "invalid" = None.
Proof.
  split; [|by vm_compute].
  intros name brand price raw w.
  set (r := product name brand price raw).
  assert (r !! "brand" = Some brand) as Hb by done.
  assert (r !! "rating" = Some raw) as Hraw by done.
  assert (r !! "name" = Some name) as Hn by done.
  assert (rating_of r = PyFloat.float_of_str raw) as Hr
    by (unfold rating_of; by rewrite Hraw).
  clearbody r. rewrite calculate_average_rating_readable.
  2:{ repeat constructor; by eauto. }
  unfold ranking, averages, brands_seen, warnings, warning_of.
  cbn -[Float.div Float.add Float.of_Z mean]. rewrite Hr, Hb, Hraw, Hn.
  destruct (PyFloat.float_of_str raw) as [x|] eqn:Hx;
    cbn -[Float.div Float.add Float.of_Z mean]; [|done].
  rewrite decide_True by done.
  cbn -[Float.div Float.add Float.of_Z mean]. rewrite Hr.
  by rewrite warned_nil.
Qed.

(** The four ratings in the aggregator: each record is counted. *)
Example special_ratings_are_counted :
  calculate_average_rating
    [product "p1" "a" "1" "inf"; product "p2" "b" "1" "nan";
     product "p3" "c" "1" "1e2"; product "p4" "d" "1" " 4.5 "] world0 =
  (Ok [("a", Float.infinity); ("b", Float.nan); ("c", Float.of_Z 100);
       ("d", four_and_a_half)], world0).
Proof. vm_compute. reflexivity. Qed.

Section Reporter.
Variable tabulate : list (list string) -> list string -> string -> string.

(** C8.  The empty list of records is not an error: the aggregator returns
    the empty list and writes nothing, and the report of the empty list is
    the table rendered from the two headers and no row. *)
Theorem empty_input_is_not_an_error w :
  calculate_average_rating [] w = (Ok [], w) ∧
  generate_report tabulate "average-rating" [] w =
    (Ok tt, printed (tabulate [] ["Brand"; "Rating"] "grid") w).
Proof. done. Qed.

(** C4.  For a report type other than [average-rating], [generate_report]
    raises ValueError, which is not one of the errors of the loader, and
    prints nothing; for [average-rating] it returns, having printed one
    text. *)
Theorem unsupported_report_type_raises report_type data w :
  (report_type ≠ "average-rating" →
   generate_report tabulate report_type data w =
     (Raise (ValueError (unsupported report_type)), w) ∧
   is_input_error (ValueError (unsupported report_type)) = false) ∧
  (report_type = "average-rating" →
   ∃ text, generate_report tabulate report_type data w = (Ok tt, printed text w)).
Proof.
  unfold generate_report. split.
  - intros H. apply String.eqb_neq in H. by rewrite H.
  - intros ->. by eexists.
Qed.

(** In [main] the ValueError of the reporter becomes exit status 1, after
    the aggregation, with nothing on standard output. *)
Lemma main_unsupported_report_type files report w records w1 out w2 :
  report ≠ "average-rating" →
  read_csv_files files w = (Ok records, w1) →
  calculate_average_rating records w1 = (Ok out, w2) →
  main tabulate files report w =
  (Raise (SystemExit 1),
   warned [String.concat "" ["Ошибка: "; unsupported report]] w2).
Proof.
  intros Hne Hread Hcalc. unfold main.
  erewrite bind_Ok by done. erewrite bind_Ok by done.
  unfold try_except, generate_report.
  apply String.eqb_neq in Hne. by rewrite Hne.
Qed.

End Reporter.

Lemma unsupported_report_type_raises_witness :
  generate_report bars "invalid" [] world0 =
    (Raise (ValueError (unsupported "invalid")), world0) ∧
  ∃ text,
    generate_report bars "average-rating" [("apple", four_and_a_half)] world0 =
      (Ok tt, printed text world0).
Proof.
  split.
  - apply (proj1 (unsupported_report_type_raises bars "invalid" [] world0)).
    discriminate.
  - apply (proj2 (unsupported_report_type_raises bars "average-rating"
                    [("apple", four_and_a_half)] world0)).
    reflexivity.
Defined.

(** ** The loader *)

Lemma read_file_rows all_records path rows w :
  files w !! path = Some (Rows rows) →
  read_file all_records path w = (Ok (all_records ++ rows), opening path w).
Proof.
  intros H. unfold read_file, try_except, bind, read_rows. by rewrite H.
Qed.

Lemma read_file_missing all_records path w :
  files w !! path = None →
  read_file all_records path w =
  (Raise (SystemExit 1), warned [file_not_found path] (opening path w)).
Proof.
  intros H. unfold read_file, try_except, bind, read_rows. by rewrite H.
Qed.

Lemma read_file_malformed all_records path rows msg w :
  files w !! path = Some (Malformed rows msg) →
  read_file all_records path w =
  (Raise (SystemExit 1), warned [csv_error path msg] (opening path w)).
Proof.
  intros H. unfold read_file, try_except, bind, read_rows. by rewrite H.
Qed.

(** The two exceptions that no clause of the [try] statement names leave
    the loop as they are. *)
Lemma read_file_unopenable all_records path class_name w :
  files w !! path = Some (Unopenable class_name) →
  read_file all_records path w =
  (Raise (OSError class_name path), opening path w).
Proof.
  intros H. unfold read_file, try_except, bind, read_rows. by rewrite H.
Qed.

Lemma read_file_undecodable all_records path rows msg w :
  files w !! path = Some (Undecodable rows msg) →
  read_file all_records path w =
  (Raise (UnicodeDecodeError msg), opening path w).
Proof.
  intros H. unfold read_file, try_except, bind, read_rows. by rewrite H.
Qed.

(** Files that all parse are read in order and their rows concatenated. *)
Lemma read_loop_parses paths all_records w :
  Forall (parses (files w)) paths →
  for_each paths all_records read_file w =
  (Ok (all_records ++ rows_of (files w) paths),
   World (files w) (opened w ++ paths) (stdout w) (stderr w)).
Proof.
  intros H. revert all_records w H.
  induction paths as [|path paths IH]; intros all_records w H.
  - destruct w. unfold rows_of. simpl. unfold ret. by rewrite !app_nil_r.
  - apply Forall_cons in H as [[rows Hrows] H]. cbn [for_each].
    erewrite bind_Ok by by apply read_file_rows.
    rewrite IH by done. unfold rows_of. cbn [omap list_omap opening files].
    rewrite Hrows. simpl. by rewrite <- !app_assoc.
Qed.

Lemma read_csv_files_parses paths w :
  Forall (parses (files w)) paths →
  read_csv_files paths w =
  (Ok (rows_of (files w) paths),
   World (files w) (opened w ++ paths) (stdout w) (stderr w)).
Proof. intros H. unfold read_csv_files. by rewrite read_loop_parses. Qed.

Lemma for_each_app {A S} (xs ys : list A) (st : S) (body : S -> A -> M S) w :
  for_each (xs ++ ys) st body w =
  bind (for_each xs st body) (fun st' => for_each ys st' body) w.
Proof.
  revert st w. induction xs as [|x xs IH]; intros st w; [done|].
  cbn [app for_each]. unfold bind.
  destruct (body st x w) as [[st'|e] w']; [|done]. apply IH.
Qed.






Section Loader.
Variable tabulate : list (list string) -> list string -> string -> string.


End Loader.


(** The run on these paths: the file before the missing one is read, the
    line names the missing path, the file after it is not opened. *)
Example missing_file_after_a_file_that_parses :
  read_csv_files ["a.csv"; "missing.csv"; "b.csv"] some_world =
  (Raise (SystemExit 1),
   World some_files ["a.csv"; "missing.csv"] []
     ["Ошибка: файл не найден — missing.csv"]).
Proof. by vm_compute. Qed.

(** A path below a regular file does not exist either, but [open] raises
    NotADirectoryError for it, which the loader does not catch. *)
Example not_a_directory_is_not_caught :
  read_csv_files ["a.csv/x.csv"; "a.csv"]
    (World {[ "a.csv" := Rows xiaomi_records;
              "a.csv/x.csv" := Unopenable "NotADirectoryError" ]} [] [] []) =
  (Raise (OSError "NotADirectoryError" "a.csv/x.csv"),
   World {[ "a.csv" := Rows xiaomi_records;
            "a.csv/x.csv" := Unopenable "NotADirectoryError" ]}
     ["a.csv/x.csv"] [] []).
Proof. by vm_compute. Qed.

(** A run of [main] on the two files that parse. *)
Example main_some_files :
  main bars ["a.csv"; "b.csv"] "average-rating" some_world =
  (Ok tt,
   World some_files ["a.csv"; "b.csv"]
     ["Brand|Rating|apple|4.9|xiaomi|4.5|Apple|4.5"] []).
Proof. vm_compute. reflexivity. Qed.

(** * Further properties of the loader *)

(** The rows read are appended to the list the loop starts from. *)
Lemma read_loop_shift paths all_records w :
  for_each paths all_records read_file w =
  match for_each paths [] read_file w with
  | (Ok records, w') => (Ok (all_records ++ records), w')
  | (Raise e, w') => (Raise e, w')
  end.
Proof.
  revert all_records w.
  induction paths as [|path paths IH]; intros all_records w.
  - simpl. unfold ret. by rewrite app_nil_r.
  - cbn [for_each].
    destruct (files w !! path) as [[rows|rows msg|class_name|rows msg]|] eqn:H.
    + rewrite !(bind_Ok _ _ w _ (opening path w)) by by apply read_file_rows.
      rewrite (IH (all_records ++ rows)), (IH ([] ++ rows)).
      destruct (for_each paths [] read_file (opening path w)) as [[r|e] w'];
        [|done].
      by rewrite <- app_assoc.
    + by rewrite !(bind_Raise _ _ w (SystemExit 1)
                    (warned [csv_error path msg] (opening path w)))
        by by eapply read_file_malformed.
    + by rewrite !(bind_Raise _ _ w (OSError class_name path) (opening path w))
        by by eapply read_file_unopenable.
    + by rewrite !(bind_Raise _ _ w (UnicodeDecodeError msg) (opening path w))
        by by eapply read_file_undecodable.
    + by rewrite !(bind_Raise _ _ w (SystemExit 1)
                    (warned [file_not_found path] (opening path w)))
        by by apply read_file_missing.
Qed.

Lemma rows_of_Forall2 (fs : gmap string csv_file) paths rowss :
  Forall2 (fun path rows => fs !! path = Some (Rows rows)) paths rowss →
  Forall (parses fs) paths ∧ rows_of fs paths = concat rowss.
Proof.
  induction 1 as [|path rows paths rowss H _ [IH1 IH2]]; [done|]. split.
  - constructor; [by exists rows|done].
  - unfold rows_of in *. cbn [omap list_omap]. rewrite H. simpl. by rewrite IH2.
Qed.

(** X1.  When every path names a file that the CSV reader reads to its
    end, [read_csv_files] returns the rows of the files, file after file in
    the order of the paths (a path given twice is read twice); each path
    has been opened once, in order, and nothing has been written. *)
Theorem loader_concatenates_rows paths rowss w :
  Forall2 (fun path rows => files w !! path = Some (Rows rows)) paths rowss →
  read_csv_files paths w =
  (Ok (concat rowss),
   World (files w) (opened w ++ paths) (stdout w) (stderr w)).
Proof.
  intros H. apply rows_of_Forall2 in H as [Hp <-].
  by apply read_csv_files_parses.
Qed.

Lemma loader_concatenates_rows_witness :
  read_csv_files ["a.csv"; "b.csv"; "a.csv"] some_world =
  (Ok (concat [xiaomi_records; apple_records; xiaomi_records]),
   World some_files ["a.csv"; "b.csv"; "a.csv"] [] []).
Proof.
  apply (loader_concatenates_rows ["a.csv"; "b.csv"; "a.csv"]
           [xiaomi_records; apple_records; xiaomi_records] some_world).
  repeat constructor.
Defined.




(** X4.  Reading a list of paths followed by another is reading the first
    list, then the second: when both calls return, the call on the whole
    list returns the records of the first followed by those of the second;
    when the first call raises, so does the call on the whole list, in the
    same state. *)
Theorem loader_of_appended_paths paths1 paths2 w :
  (∀ records1 w1 records2 w2,
     read_csv_files paths1 w = (Ok records1, w1) →
     read_csv_files paths2 w1 = (Ok records2, w2) →
     read_csv_files (paths1 ++ paths2) w = (Ok (records1 ++ records2), w2)) ∧
  (∀ e w1,
     read_csv_files paths1 w = (Raise e, w1) →
     read_csv_files (paths1 ++ paths2) w = (Raise e, w1)).
Proof.
  unfold read_csv_files. split.
  - intros records1 w1 records2 w2 H1 H2. rewrite for_each_app.
    erewrite bind_Ok by exact H1. by rewrite read_loop_shift, H2.
  - intros e w1 H1. rewrite for_each_app. by erewrite bind_Raise by exact H1.
Qed.

Lemma loader_of_appended_paths_witness :
  read_csv_files (["a.csv"] ++ ["b.csv"]) some_world =
  (Ok (xiaomi_records ++ apple_records),
   World some_files ["a.csv"; "b.csv"] [] []).
Proof.
  apply (proj1 (loader_of_appended_paths ["a.csv"] ["b.csv"] some_world)
           xiaomi_records (World some_files ["a.csv"] [] [])
           apple_records (World some_files ["a.csv"; "b.csv"] [] []));
    vm_compute; reflexivity.
Defined.

(** * Further properties of the aggregator *)

(** X5.  The loop reads [brand], then [rating], then, for a rejected rating,
    [name].  At the first record for which one of these lookups fails,
    [calculate_average_rating] raises KeyError for that key; the warnings
    for the rejected ratings met before that record have been written. *)
Theorem lookup_failure_stops_aggregation pre r post key w :
  Forall readable pre →
  (r !! "brand" = None ∧ key = "brand") ∨
  (is_Some (r !! "brand") ∧ r !! "rating" = None ∧ key = "rating") ∨
  (is_Some (r !! "brand") ∧ is_Some (r !! "rating") ∧ rating_of r = None ∧
   r !! "name" = None ∧ key = "name") →
  calculate_average_rating (pre ++ r :: post) w =
  (Raise (KeyError key),
   World (files w) (opened w) (stdout w) (stderr w ++ warnings pre)).
Proof.
  intros Hpre Hkey. apply calculate_average_rating_unreadable; [done|].
  unfold missing_key, rating_of in *.
  destruct Hkey as [[-> ->]|[([b ->] & -> & ->)|([b ->] & [raw ->] & H & -> & ->)]];
    [done..|].
  simpl in H. by rewrite H.
Qed.

Lemma lookup_failure_stops_aggregation_witness :
  calculate_average_rating (invalid_records ++ nameless_rejected :: xiaomi_records)
    world0 =
  (Raise (KeyError "name"),
   World (files world0) (opened world0) (stdout world0)
     (stderr world0 ++ warnings invalid_records)).
Proof.
  apply (lookup_failure_stops_aggregation invalid_records nameless_rejected
           xiaomi_records "name" world0).
  - repeat constructor; apply readable_missing_key; vm_compute; reflexivity.
  - right. right. split_and!; try (vm_compute; reflexivity); by eexists.
Defined.

(** X6.  [calculate_average_rating] returns exactly when every record has
    the keys [brand] and [rating], and the key [name] if its rating is
    rejected. *)
Theorem aggregator_returns_iff_readable records w :
  (∃ out w', calculate_average_rating records w = (Ok out, w')) ↔
  Forall readable records.
Proof.
  split.
  - intros (out & w' & H). by apply calculate_average_rating_Ok in H as [? _].
  - intros H. eexists _, _. by apply calculate_average_rating_readable.
Qed.

(** X7.  Whatever the records, [calculate_average_rating] prints nothing to
    standard output and opens no file: it only adds lines to standard
    error, at most one for each record. *)
Theorem aggregator_writes_to_stderr_only records w :
  ∃ o lines,
    calculate_average_rating records w =
      (o, World (files w) (opened w) (stdout w) (stderr w ++ lines)) ∧
    (length lines ≤ length records)%nat.
Proof.
  assert (∀ l : list record, (length (warnings l) ≤ length l)%nat) as Hlen.
  { intros l. induction l as [|r l IH]; [done|].
    rewrite warnings_cons, length_app.
    destruct (warning_of r); simpl; lia. }
  destruct (first_unreadable records) as [H|(pre & r & post & k & -> & Hpre & Hk)].
  - exists (Ok (ranking records)), (warnings records).
    split; [by apply calculate_average_rating_readable|done].
  - exists (Raise (KeyError k)), (warnings pre).
    split; [by apply calculate_average_rating_unreadable|].
    rewrite length_app. specialize (Hlen pre). lia.
Qed.

Lemma NoDup_only (x : string) l :
  NoDup l → (∀ y, y ∈ l ↔ y = x) → l = [x].
Proof.
  intros Hnd H. destruct l as [|a l].
  - exfalso. eapply not_elem_of_nil. by apply (H x).
  - assert (a = x) as -> by (apply H, elem_of_cons; by left).
    destruct l as [|b l]; [done|]. exfalso.
    assert (b = x) as ->.
    { apply H. apply elem_of_cons. right. apply elem_of_cons. by left. }
    apply NoDup_cons in Hnd as [Hnd _]. apply Hnd, elem_of_cons. by left.
Qed.

Lemma ratings_of_own_records brand records :
  ratings_of brand (filter (fun r => r !! "brand" = Some brand) records) =
  ratings_of brand records.
Proof.
  unfold ratings_of. f_equal. rewrite list_filter_filter.
  apply list_filter_iff. naive_solver.
Qed.

Lemma ratings_of_other_records brand brand' records :
  brand' ≠ brand →
  ratings_of brand' (filter (fun r => r !! "brand" = Some brand) records) = [].
Proof.
  intros Hne. apply ratings_of_nil. intros r Hr Hb.
  apply list_elem_of_filter in Hr as [Hb' _]. congruence.
Qed.

Lemma brands_seen_own_records brand records :
  ratings_of brand records ≠ [] →
  brands_seen (filter (fun r => r !! "brand" = Some brand) records) = [brand].
Proof.
  intros H. apply NoDup_only; [apply NoDup_first_occurrences|].
  intros b. rewrite elem_of_brands_seen. split.
  - intros Hb. destruct (decide (b = brand)) as [|Hne]; [done|].
    by rewrite ratings_of_other_records in Hb.
  - intros ->. by rewrite ratings_of_own_records.
Qed.

(** X8.  The entry of a brand depends on the records of that brand only:
    called on these records alone, in the same order,
    [calculate_average_rating] returns that entry and nothing else. *)
Theorem brand_entry_depends_on_its_records records w out w' brand average :
  calculate_average_rating records w = (Ok out, w') →
  (brand, average) ∈ out →
  ∃ w'',
    calculate_average_rating
      (filter (fun r => r !! "brand" = Some brand) records) w =
    (Ok [(brand, average)], w'').
Proof.
  intros H Hin. apply calculate_average_rating_Ok in H as (Hr & -> & _).
  apply elem_of_ranking in Hin as [Hb ->]. apply elem_of_brands_seen in Hb.
  eexists. rewrite calculate_average_rating_readable.
  - unfold ranking, averages. rewrite brands_seen_own_records by done.
    cbn [map]. by rewrite ratings_of_own_records.
  - rewrite Forall_forall in Hr. apply Forall_forall. intros r Hin.
    apply list_elem_of_filter in Hin as [_ Hin]. by apply Hr.
Qed.

Lemma brand_entry_depends_on_its_records_witness :
  ∃ w'',
    calculate_average_rating
      (filter (fun r => r !! "brand" = Some "Apple") apple_records) world0 =
    (Ok [("Apple", four_and_a_half)], w'').
Proof.
  apply (brand_entry_depends_on_its_records apple_records world0
           [("apple", Float.of_decimal false 49 (-1)); ("Apple", four_and_a_half)]
           world0).
  - vm_compute. reflexivity.
  - apply elem_of_cons. right. apply list_elem_of_here.
Defined.

(** * Properties of the entry point *)

Section MainFacts.
Variable tabulate : list (list string) -> list string -> string -> string.

Lemma main_after_loading paths report w records w1 :
  read_csv_files paths w = (Ok records, w1) →
  Forall readable records →
  main tabulate paths report w =
  if String.eqb report "average-rating" then
    (Ok tt,
     printed
       (tabulate
          (map (fun '(brand, avg_rating) => [brand; Format.fixed1 avg_rating])
             (ranking records))
          ["Brand"; "Rating"] "grid")
       (warned (warnings records) w1))
  else
    (Raise (SystemExit 1),
     warned [String.concat "" ["Ошибка: "; unsupported report]]
       (warned (warnings records) w1)).
Proof.
  intros Hread Hr. unfold main.
  erewrite bind_Ok by exact Hread.
  erewrite bind_Ok by by apply calculate_average_rating_readable.
  unfold try_except, generate_report.
  by destruct (String.eqb report "average-rating").
Qed.

(** X9.  When every file parses with rows of string fields, every record
    is readable and no brand average is a NaN, [main] with the report type
    [average-rating] returns: it has opened the paths in order, written the
    warnings of the rejected ratings to standard error, and printed one
    text, the table of the ranking of all the rows, each row a brand and
    its average with one decimal. *)
Theorem main_prints_the_ranking paths rowss w :
  Forall2 (fun path rows => files w !! path = Some (Rows rows)) paths rowss →
  Forall readable (concat rowss) →
  Forall (fun p => Float.is_nan (snd p) = false) (averages (concat rowss)) →
  main tabulate paths "average-rating" w =
  (Ok tt,
   World (files w) (opened w ++ paths)
     (stdout w ++
      [tabulate
         (map (fun '(brand, avg_rating) => [brand; Format.fixed1 avg_rating])
            (ranking (concat rowss)))
         ["Brand"; "Rating"] "grid"])
     (stderr w ++ warnings (concat rowss))) ∧
  in_descending_order (ranking (concat rowss)).
Proof.
  intros H Hr Hnan. apply rows_of_Forall2 in H as [Hp Hc]. rewrite <- Hc in *.
  split.
  - by rewrite (main_after_loading paths _ w _ _
                  (read_csv_files_parses paths w Hp) Hr).
  - intros i p q Hi Hq.
    by apply (Sorted_lookup_next (descending snd) _ i p q
                (sort_reverse_Sorted snd _ Hnan)).
Qed.

(** X10.  The report type is checked last: with files that parse and
    readable records, [main] with another report type has read every file
    and written the warnings of the aggregation before it writes the error
    line naming the type and exits with status 1; nothing is printed. *)
Theorem main_checks_report_type_last paths rowss report w :
  Forall2 (fun path rows => files w !! path = Some (Rows rows)) paths rowss →
  Forall readable (concat rowss) →
  report ≠ "average-rating" →
  main tabulate paths report w =
  (Raise (SystemExit 1),
   World (files w) (opened w ++ paths) (stdout w)
     (stderr w ++ warnings (concat rowss) ++
      [String.concat "" ["Ошибка: Неподдерживаемый тип отчёта: "; report]])).
Proof.
  intros H Hr Hne. apply rows_of_Forall2 in H as [Hp Hc]. rewrite <- Hc in *.
  rewrite (main_after_loading paths _ w _ _
             (read_csv_files_parses paths w Hp) Hr).
  apply String.eqb_neq in Hne. rewrite Hne.
  unfold warned. simpl. by rewrite <- app_assoc.
Qed.

(** X11.  [main] does not catch KeyError: when the files parse and a record
    lacks a key the loop reads, the run ends with that exception, status 1,
    after the warnings of the records before it; nothing is printed and no
    line starting with the word for error is written. *)
Theorem main_does_not_catch_KeyError paths rowss pre r post key report w :
  Forall2 (fun path rows => files w !! path = Some (Rows rows)) paths rowss →
  concat rowss = pre ++ r :: post →
  Forall readable pre → missing_key r = Some key →
  main tabulate paths report w =
    (Raise (KeyError key),
     World (files w) (opened w ++ paths) (stdout w) (stderr w ++ warnings pre)) ∧
  exit_status (@Raise unit (KeyError key)) = 1.
Proof.
  intros H Hrows Hpre Hkey. split; [|done].
  apply rows_of_Forall2 in H as [Hp Hc]. unfold main.
  erewrite bind_Ok by by apply read_csv_files_parses.
  rewrite Hc, Hrows.
  by erewrite bind_Raise by by apply calculate_average_rating_unreadable.
Qed.

End MainFacts.

Lemma main_prints_the_ranking_witness :
  main bars ["a.csv"; "b.csv"] "average-rating" some_world =
  (Ok tt,
   World (files some_world) (opened some_world ++ ["a.csv"; "b.csv"])
     (stdout some_world ++
      [bars
         (map (fun '(brand, avg_rating) => [brand; Format.fixed1 avg_rating])
            (ranking (concat [xiaomi_records; apple_records])))
         ["Brand"; "Rating"] "grid"])
     (stderr some_world ++ warnings (concat [xiaomi_records; apple_records]))) ∧
  in_descending_order (ranking (concat [xiaomi_records; apple_records])).
Proof.
  apply (main_prints_the_ranking bars ["a.csv"; "b.csv"]
           [xiaomi_records; apple_records] some_world).
  - repeat constructor.
  - repeat constructor; apply readable_missing_key; vm_compute; reflexivity.
  - vm_compute. repeat constructor.
Defined.

Lemma main_checks_report_type_last_witness :
  main bars ["a.csv"; "b.csv"] "invalid" some_world =
  (Raise (SystemExit 1),
   World (files some_world) (opened some_world ++ ["a.csv"; "b.csv"])
     (stdout some_world)
     (stderr some_world ++ warnings (concat [xiaomi_records; apple_records]) ++
      [String.concat "" ["Ошибка: Неподдерживаемый тип отчёта: "; "invalid"]])).
Proof.
  apply (main_checks_report_type_last bars ["a.csv"; "b.csv"]
           [xiaomi_records; apple_records] "invalid" some_world).
  - repeat constructor.
  - repeat constructor; apply readable_missing_key; vm_compute; reflexivity.
  - discriminate.
Defined.

Lemma main_does_not_catch_KeyError_witness :
  main bars ["c.csv"] "average-rating" keyless_world =
    (Raise (KeyError "brand"),
     World (files keyless_world) (opened keyless_world ++ ["c.csv"])
       (stdout keyless_world)
       (stderr keyless_world ++ warnings [product "p1" "apple" "1000" "4.5"])) ∧
  exit_status (@Raise unit (KeyError "brand")) = 1.
Proof.
  apply (main_does_not_catch_KeyError bars ["c.csv"] [brandless_records]
           [product "p1" "apple" "1000" "4.5"]
           {[ "name" := "p2"; "rating" := "4.9" ]} [] "brand"
           "average-rating" keyless_world).
  - repeat constructor.
  - reflexivity.
  - repeat constructor; apply readable_missing_key; vm_compute; reflexivity.
  - vm_compute. reflexivity.
Defined.

(** The number of tenths that [Format.fixed1] prints for a finite number is
    the integer nearest to ten times the number, the even one of the two
    when it lies halfway: for an average [m * 2 ^ e], it is [10 * m * 2 ^ e] when that
    is an integer ([0 <= e]), and otherwise differs from it by at most one
    half. *)
Lemma tenths_is_nearest m e :
  (0 <= e → Format.tenths m e = Zpos m * 2 ^ e * 10) ∧
  (e < 0 →
   let den := 2 ^ (- e) in
   let err := 2 * (Zpos m * 10) - 2 * Format.tenths m e * den in
   0 <= Format.tenths m e ∧ Z.abs err <= den ∧
   (Z.abs err = den → Z.even (Format.tenths m e) = true)).
Proof.
  unfold Format.tenths. split.
  - intros H. apply Z.leb_le in H. by rewrite H.
  - intros H. assert ((0 <=? e) = false) as -> by by apply Z.leb_gt.
    cbv zeta. set (den := 2 ^ (- e)). set (n := Zpos m * 10).
    assert (0 < den) as Hden by (apply Z.pow_pos_nonneg; lia).
    pose proof (Z.div_mod n den ltac:(lia)) as Hn.
    pose proof (Z.mod_pos_bound n den Hden) as Hr.
    assert (0 <= n / den) as Hq by (apply Z.div_pos; lia).
    set (q := n / den) in *. set (r := n mod den) in *.
    destruct (Z.compare_spec (2 * r) den) as [Heq|Hlt|Hgt].
    + destruct (Z.even q) eqn:Hev.
      * split_and!; [lia|lia|done].
      * split_and!; [lia|lia|]. intros _.
        rewrite Z.even_add, Hev. reflexivity.
    + split_and!; [lia|lia|lia].
    + split_and!; [lia|lia|lia].
Qed.
